(** * The affine kernel of nnabla-c-runtime

    A shallow embedding of
    [src/functions/implements/neural_network/affine/affine.c]:
    [allocate_affine_config] (the bind step), [exec_affine] and its two
    strategies [exec_affine_float] and [exec_affine_generic].

    - C [int] values are integers of [Z] wrapped to 32 bits ([Int.wrap]).
    - C [float] values are IEEE 754 binary32 numbers, the [spec_float] of
      the Standard Library at precision 24 and maximal exponent 128; every
      addition and multiplication is rounded to binary32.
    - Memory is a finite map from the address of a buffer to its elements.
      Two Variables with the same [data] address share their buffer.
    - An access outside a buffer, a missing argument and a read outside a
      shape array are undefined behaviour in C; they are the fault
      [UndefinedBehaviour] here.  A failed [assert] is the fault
      [AssertionFailed]. *)

From Stdlib Require Import ZArith Lia Bool.
From Stdlib Require Import Floats.SpecFloat.
From stdpp Require Import base option list gmap.

Local Open Scope Z_scope.

(** ** C [int] arithmetic *)

Module Int.

Definition half_modulus : Z := 2 ^ 31.
Definition modulus : Z := 2 ^ 32.

Definition wrap (z : Z) : Z := (z + half_modulus) mod modulus - half_modulus.

Definition add (a b : Z) : Z := wrap (a + b).
Definition mul (a b : Z) : Z := wrap (a * b).

Definition in_range (z : Z) : Prop := - half_modulus <= z < half_modulus.

End Int.

(** ** C [float] arithmetic: IEEE 754 binary32 *)

Module F32.

Definition prec : Z := 24.
Definition emax : Z := 128.

Definition t : Type := spec_float.

Definition zero : t := S754_zero false.
Definition add : t -> t -> t := SFadd prec emax.
Definition mul : t -> t -> t := SFmul prec emax.

Definition is_zero (x : t) : bool :=
  match x with
  | S754_zero _ => true
  | _ => false
  end.

(** The float of an integer constant, as in the literal [3.0f]. *)
Definition of_Z (z : Z) : t := binary_normalize prec emax z 0 false.

End F32.

(** ** Outcomes of the C functions *)

Inductive fault : Type :=
| AssertionFailed
| UndefinedBehaviour.

Inductive result (A : Type) : Type :=
| Ok (a : A)
| Fault (e : fault).

Arguments Ok {A} a.
Arguments Fault {A} e.

#[export] Instance result_ret : MRet result := fun A a => Ok a.

#[export] Instance result_bind : MBind result := fun A B k m =>
  match m with
  | Ok a => k a
  | Fault e => Fault e
  end.

Definition assert (b : bool) : result unit :=
  if b then Ok tt else Fault AssertionFailed.

(** [for (i = lo; i < hi; i++) body], for a bound [hi] that the body
    does not change. *)
Fixpoint for_from {S : Type} (count : nat) (i : Z)
    (body : Z -> S -> result S) (s : S) : result S :=
  match count with
  | O => Ok s
  | Datatypes.S count' => s' ← body i s; for_from count' (i + 1) body s'
  end.

Definition for_loop {S : Type} (lo hi : Z)
    (body : Z -> S -> result S) (s : S) : result S :=
  for_from (Z.to_nat (hi - lo)) lo body s.

(** ** Variables and memory *)

(** Modelled from the spec: the type tags are declared in the nnablart
    headers, which are not under src/.  [affine.c] names only
    [NN_DATA_TYPE_FLOAT]; every other storage representation (fixed point,
    binary) is a tag [NN_DATA_TYPE_OTHER]. *)
Inductive rt_variable_type_t : Type :=
| NN_DATA_TYPE_FLOAT
| NN_DATA_TYPE_OTHER (tag : Z).

Definition is_float (ty : rt_variable_type_t) : bool :=
  match ty with
  | NN_DATA_TYPE_FLOAT => true
  | NN_DATA_TYPE_OTHER _ => false
  end.

(** [rt_list_t]: the [size] of a shape is the length of its [data]. *)
Abbreviation rt_list_t := (list Z).

Definition rt_list_size (l : rt_list_t) : Z := Z.of_nat (length l).

(** [l.data[i]] *)
Definition rt_list_data (l : rt_list_t) (i : Z) : result Z :=
  if i <? 0 then Fault UndefinedBehaviour
  else match l !! Z.to_nat i with
       | Some d => Ok d
       | None => Fault UndefinedBehaviour
       end.

(** [rt_variable_t]: [data] is the address of the buffer. *)
Record rt_variable_t : Type := {
  type : rt_variable_type_t;
  shape : rt_list_t;
  data : Z
}.

(** The memory: buffer address to buffer elements.  The element of a
    Float32 buffer is its value; the element of a buffer of another type
    stands for its stored code. *)
Abbreviation heap := (gmap Z (list F32.t)).

(** [*(p + pos)] *)
Definition load (p pos : Z) (h : heap) : result F32.t :=
  if pos <? 0 then Fault UndefinedBehaviour
  else match h !! p with
       | Some buf =>
           match buf !! Z.to_nat pos with
           | Some x => Ok x
           | None => Fault UndefinedBehaviour
           end
       | None => Fault UndefinedBehaviour
       end.

(** [*(p + pos) = x] *)
Definition store (p pos : Z) (x : F32.t) (h : heap) : result heap :=
  if pos <? 0 then Fault UndefinedBehaviour
  else match h !! p with
       | Some buf =>
           if (Z.to_nat pos <? length buf)%nat
           then Ok (<[p := <[Z.to_nat pos := x]> buf]> h)
           else Fault UndefinedBehaviour
       | None => Fault UndefinedBehaviour
       end.

(** [memset(p, 0, sizeof(float) * count)]: the all-zero bytes of a float
    are [+0.0].  A negative [count] converts to a huge [size_t]. *)
Definition memset_zero (p count : Z) (h : heap) : result heap :=
  if count <? 0 then Fault UndefinedBehaviour
  else for_loop 0 count (fun i => store p i F32.zero) h.

Definition rt_variable_getter : Type := rt_variable_t -> Z -> heap -> result F32.t.
Definition rt_variable_setter : Type := rt_variable_t -> Z -> F32.t -> heap -> result heap.

(** Modelled from the spec: [calc_shape_size] is declared in utilities.h,
    which is not under src/; it is the product of the dimensions
    ([output_size = product(output.shape)]), computed on [int]. *)
Definition calc_shape_size (s : rt_list_t) : Z :=
  fold_left Int.mul s 1.

(** The numeric conversions of the accessors of the non-float types, from
    a stored code to a float and back.  The accessors are not under src/;
    the kernel is verified for every such pair of conversions. *)
Class Conversions : Type := {
  dequantize : Z -> F32.t -> F32.t;
  quantize : Z -> F32.t -> F32.t
}.

Section Affine.

Context `{Conversions}.

Definition get_float : rt_variable_getter :=
  fun v pos h => load (data v) pos h.

Definition set_float : rt_variable_setter :=
  fun v pos x h => store (data v) pos x h.

Definition get_other (tag : Z) : rt_variable_getter :=
  fun v pos h => c ← load (data v) pos h; Ok (dequantize tag c).

Definition set_other (tag : Z) : rt_variable_setter :=
  fun v pos x h => store (data v) pos (quantize tag x) h.

(** Modelled from the spec: [select_getter] and [select_setter] are
    declared in utilities.h, which is not under src/.  They resolve, from
    the type tag alone, the reader and the writer of a Variable; for
    Float32 these are the raw read and write of the element. *)
Definition select_getter (v : rt_variable_t) : rt_variable_getter :=
  match type v with
  | NN_DATA_TYPE_FLOAT => get_float
  | NN_DATA_TYPE_OTHER tag => get_other tag
  end.

Definition select_setter (v : rt_variable_t) : rt_variable_setter :=
  match type v with
  | NN_DATA_TYPE_FLOAT => set_float
  | NN_DATA_TYPE_OTHER tag => set_other tag
  end.

(** ** The kernel *)

Record affine_config_t : Type := {
  base_axis : Z
}.

(** [rt_function_t], with the fields [affine.c] reads. *)
Record rt_function_t : Type := {
  num_of_inputs : Z;
  inputs : list rt_variable_t;
  num_of_outputs : Z;
  outputs : list rt_variable_t;
  config : affine_config_t
}.

(** [struct affine_impl].  [bias] is the null pointer when [None];
    [get_bias] is assigned only together with [bias]. *)
Record affine_impl_t : Type := {
  impl_config : affine_config_t;
  input : rt_variable_t;
  get_input : rt_variable_getter;
  weight : rt_variable_t;
  get_weight : rt_variable_getter;
  bias : option rt_variable_t;
  get_bias : option rt_variable_getter;
  output : rt_variable_t;
  output_size : Z;
  set_output : rt_variable_setter;
  get_output : rt_variable_getter;
  base_loop_size : Z;
  input_loop_size : Z;
  output_loop_size : Z
}.

(** [f->inputs[i]], [f->outputs[i]] *)
Definition variable_at (vs : list rt_variable_t) (i : nat) : result rt_variable_t :=
  match vs !! i with
  | Some v => Ok v
  | None => Fault UndefinedBehaviour
  end.

(** [acc = 1; for (i = lo; i < hi; i++) acc *= s.data[i];] *)
Definition shape_loop (s : rt_list_t) (lo hi : Z) : result Z :=
  for_loop lo hi (fun i acc => d ← rt_list_data s i; Ok (Int.mul acc d)) 1.

(** The bind step: what it writes into the block [buf] that becomes the
    [struct affine_impl]; the record returned is that block.  Where the
    block comes from, and what [f->config] points to afterwards, is
    [allocate_affine_config_in].  Nothing is checked but the two
    assertions. *)
Definition allocate_affine_config (f : rt_function_t) : result affine_impl_t :=
  _ ← assert ((num_of_inputs f =? 2) || (num_of_inputs f =? 3));
  _ ← assert (num_of_outputs f =? 1);
  input ← variable_at (inputs f) 0;
  weight ← variable_at (inputs f) 1;
  output ← variable_at (outputs f) 0;
  bias ← (if 2 <? num_of_inputs f
          then b ← variable_at (inputs f) 2; Ok (Some b)
          else Ok None);
  let base_axis := base_axis (config f) in
  base_loop_size ← shape_loop (shape input) 0 base_axis;
  input_loop_size ← shape_loop (shape input) base_axis (rt_list_size (shape input));
  output_loop_size ← shape_loop (shape output) base_axis (rt_list_size (shape output));
  Ok {| impl_config := config f;
        input := input;
        get_input := select_getter input;
        weight := weight;
        get_weight := select_getter weight;
        bias := bias;
        get_bias := select_getter <$> bias;
        output := output;
        output_size := calc_shape_size (shape output);
        set_output := select_setter output;
        get_output := select_getter output;
        base_loop_size := base_loop_size;
        input_loop_size := input_loop_size;
        output_loop_size := output_loop_size |}.

(** The Direct strategy, on raw float buffers. *)
Definition exec_affine_float (pimpl : affine_impl_t) (h : heap) : result heap :=
  let input := data (input pimpl) in
  let weight := data (weight pimpl) in
  let output := data (output pimpl) in
  h ← memset_zero output (output_size pimpl) h;
  for_loop 0 (base_loop_size pimpl) (fun k h =>
    let output_offset := Int.mul k (output_loop_size pimpl) in
    let input_offset := Int.mul k (input_loop_size pimpl) in
    h ← for_loop 0 (input_loop_size pimpl) (fun j h =>
      let ipos := Int.add input_offset j in
      let weight_offset := Int.mul j (output_loop_size pimpl) in
      u ← load input ipos h;
      for_loop 0 (output_loop_size pimpl) (fun i h =>
        let opos := Int.add output_offset i in
        let wpos := Int.add weight_offset i in
        w ← load weight wpos h;
        value ← load output opos h;
        store output opos (F32.add value (F32.mul u w)) h) h) h;
    match bias pimpl with
    | Some b =>
        let bias := data b in
        for_loop 0 (output_loop_size pimpl) (fun i h =>
          let opos := Int.add output_offset i in
          let bpos := i in
          o ← load output opos h;
          c ← load bias bpos h;
          store output opos (F32.add o c) h) h
    | None => Ok h
    end) h.

(** The call through the accessor stored for the bias; the field is
    unassigned when there is no bias. *)
Definition call_get_bias (pimpl : affine_impl_t) : rt_variable_getter :=
  match get_bias pimpl with
  | Some g => g
  | None => fun _ _ _ => Fault UndefinedBehaviour
  end.

(** The Generic strategy, through the accessors. *)
Definition exec_affine_generic (pimpl : affine_impl_t) (h : heap) : result heap :=
  h ← for_loop 0 (output_size pimpl) (fun i h =>
         set_output pimpl (output pimpl) i F32.zero h) h;
  for_loop 0 (base_loop_size pimpl) (fun k h =>
    let output_offset := Int.mul k (output_loop_size pimpl) in
    let input_offset := Int.mul k (input_loop_size pimpl) in
    h ← for_loop 0 (input_loop_size pimpl) (fun j h =>
      let ipos := Int.add input_offset j in
      let weight_offset := Int.mul j (output_loop_size pimpl) in
      u ← get_input pimpl (input pimpl) ipos h;
      for_loop 0 (output_loop_size pimpl) (fun i h =>
        let opos := Int.add output_offset i in
        let wpos := Int.add weight_offset i in
        w ← get_weight pimpl (weight pimpl) wpos h;
        value ← get_output pimpl (output pimpl) opos h;
        set_output pimpl (output pimpl) opos (F32.add value (F32.mul u w)) h) h) h;
    match bias pimpl with
    | Some b =>
        for_loop 0 (output_loop_size pimpl) (fun i h =>
          let opos := Int.add output_offset i in
          let bpos := i in
          o ← get_output pimpl (output pimpl) opos h;
          c ← call_get_bias pimpl b bpos h;
          set_output pimpl (output pimpl) opos (F32.add o c) h) h
    | None => Ok h
    end) h.

(** The two execution strategies. *)
Inductive strategy : Type :=
| Direct
| Generic.

(** The guard of [exec_affine].  The source text leaves the parenthesis of
    the [if] open; it is closed before the brace, where the statement
    parses with the grouping its layout shows. *)
Definition select_strategy (pimpl : affine_impl_t) : strategy :=
  if is_float (type (input pimpl)) &&
     is_float (type (output pimpl)) &&
     is_float (type (weight pimpl)) &&
     match bias pimpl with
     | None => true
     | Some b => is_float (type b)
     end
  then Direct
  else Generic.

Definition exec_affine (pimpl : affine_impl_t) (h : heap) : result heap :=
  match select_strategy pimpl with
  | Direct => exec_affine_float pimpl h
  | Generic => exec_affine_generic pimpl h
  end.

End Affine.

(** ** The block of the Resolved State *)

(** How [realloc(f->config, sizeof(affine_impl_t))] comes out in
    [allocate_affine_config], and the [malloc] that follows a null
    result. *)
Inductive allocation : Type :=
| Grown      (* realloc returns the block it was given *)
| Moved      (* realloc returns another block and frees the one it was given *)
| Replaced   (* realloc returns null, malloc returns a block *)
| Exhausted. (* realloc returns null, and so does malloc *)

(** What [f->config] points to after the bind: the block that the bind
    filled, or the block that [realloc] freed. *)
Inductive config_block : Type :=
| Filled (pimpl : affine_impl_t)
| Released.

(** [allocate_affine_config] with the pointer it leaves in [f->config].
    The two assertions come before the allocation.  The function
    assigns [f->config = buf] in the branch of the null result only; it
    fills [buf] in every case.  With no block at all the [memcpy] writes
    through the null pointer. *)
Definition allocate_affine_config_in `{Conversions}
    (a : allocation) (f : rt_function_t) : result config_block :=
  _ ← assert ((num_of_inputs f =? 2) || (num_of_inputs f =? 3));
  _ ← assert (num_of_outputs f =? 1);
  match a with
  | Grown | Replaced => pimpl ← allocate_affine_config f; Ok (Filled pimpl)
  | Moved => _ ← allocate_affine_config f; Ok Released
  | Exhausted => Fault UndefinedBehaviour
  end.

(** [exec_affine(f)]: the state is read through [f->config]. *)
Definition exec_affine_through `{Conversions} (c : config_block) (h : heap) : result heap :=
  match c with
  | Filled pimpl => exec_affine pimpl h
  | Released => Fault UndefinedBehaviour
  end.

(** [allocate_affine_config(f); exec_affine(f);] *)
Definition bind_and_run `{Conversions}
    (a : allocation) (f : rt_function_t) (h : heap) : result heap :=
  c ← allocate_affine_config_in a f; exec_affine_through c h.

(** ** Definitions for the statements *)

(** The same Variable with another shape. *)
Definition reshape (s : rt_list_t) (v : rt_variable_t) : rt_variable_t :=
  {| type := type v; shape := s; data := data v |}.

(** The same function with other shapes for its weight and its bias. *)
Definition reshape_weight_bias (ws bs : rt_list_t) (f : rt_function_t) : rt_function_t :=
  {| num_of_inputs := num_of_inputs f;
     inputs := alter (reshape ws) 1%nat (alter (reshape bs) 2%nat (inputs f));
     num_of_outputs := num_of_outputs f;
     outputs := outputs f;
     config := config f |}.

(** The function [f] of two inputs, with [vb] bound as its third input. *)
Definition with_bias (vb : rt_variable_t) (f : rt_function_t) : rt_function_t :=
  {| num_of_inputs := 3;
     inputs := take 2 (inputs f) ++ [vb];
     num_of_outputs := num_of_outputs f;
     outputs := outputs f;
     config := config f |}.

(** The product of the dimensions of a shape, on unbounded integers. *)
Definition shape_product (s : rt_list_t) : Z := foldr Z.mul 1 s.

(** What a successful bind stores. *)
Definition resolved `{Conversions} (f : rt_function_t) (pimpl : affine_impl_t) : Prop :=
  inputs f !! 0%nat = Some (input pimpl) /\
  inputs f !! 1%nat = Some (weight pimpl) /\
  outputs f !! 0%nat = Some (output pimpl) /\
  bias pimpl = (if 2 <? num_of_inputs f then inputs f !! 2%nat else None) /\
  get_input pimpl = select_getter (input pimpl) /\
  get_weight pimpl = select_getter (weight pimpl) /\
  get_bias pimpl = (select_getter <$> bias pimpl) /\
  get_output pimpl = select_getter (output pimpl) /\
  set_output pimpl = select_setter (output pimpl) /\
  output_size pimpl = calc_shape_size (shape (output pimpl)) /\
  impl_config pimpl = config f /\
  shape_loop (shape (input pimpl)) 0 (base_axis (config f))
    = Ok (base_loop_size pimpl) /\
  shape_loop (shape (input pimpl)) (base_axis (config f)) (rt_list_size (shape (input pimpl)))
    = Ok (input_loop_size pimpl) /\
  shape_loop (shape (output pimpl)) (base_axis (config f)) (rt_list_size (shape (output pimpl)))
    = Ok (output_loop_size pimpl).

(** The condition of the Direct strategy, in the words of the
    specification: input, weight and output are Float32, and the bias is
    Float32 or absent. *)
Definition uniformly_float32 (pimpl : affine_impl_t) : Prop :=
  type (input pimpl) = NN_DATA_TYPE_FLOAT /\
  type (weight pimpl) = NN_DATA_TYPE_FLOAT /\
  type (output pimpl) = NN_DATA_TYPE_FLOAT /\
  (bias pimpl = None \/ exists b, bias pimpl = Some b /\ type b = NN_DATA_TYPE_FLOAT).

(** The four extents a bind stores. *)
Definition extents (pimpl : affine_impl_t) : Z * Z * Z * Z :=
  (output_size pimpl, base_loop_size pimpl, input_loop_size pimpl, output_loop_size pimpl).

Definition outcome {A B : Type} (g : A -> B) (r : result A) : result B :=
  match r with
  | Ok a => Ok (g a)
  | Fault e => Fault e
  end.

(** What the accessors of a type do to an element. *)
Definition decode `{Conversions} (ty : rt_variable_type_t) (c : F32.t) : F32.t :=
  match ty with
  | NN_DATA_TYPE_FLOAT => c
  | NN_DATA_TYPE_OTHER tag => dequantize tag c
  end.

Definition encode `{Conversions} (ty : rt_variable_type_t) (x : F32.t) : F32.t :=
  match ty with
  | NN_DATA_TYPE_FLOAT => x
  | NN_DATA_TYPE_OTHER tag => quantize tag x
  end.

(** [h'] differs from [h] at most in the contents of the buffer at [out]. *)
Definition only_changes (out : Z) (h h' : heap) : Prop :=
  (forall q, q <> out -> h' !! q = h !! q) /\
  length <$> h' !! out = length <$> h !! out.

(** [t] has the elements of [h] in the output buffer from the end of the
    cleared range and of the rows on. *)
Definition tail_kept (pimpl : affine_impl_t) (h t : heap) : Prop :=
  forall pos,
    output_size pimpl <= pos ->
    base_loop_size pimpl * output_loop_size pimpl <= pos ->
    load (data (output pimpl)) pos t = load (data (output pimpl)) pos h.

(** The pure counterpart of [for_from] and [for_loop]. *)
Fixpoint fold_from {A : Type} (count : nat) (i : Z) (step : Z -> A -> A) (a : A) : A :=
  match count with
  | O => a
  | Datatypes.S count' => fold_from count' (i + 1) step (step i a)
  end.

Definition fold_loop {A : Type} (lo hi : Z) (step : Z -> A -> A) (a : A) : A :=
  fold_from (Z.to_nat (hi - lo)) lo step a.

(** The effect on the element at index [p] of an update of the element at
    [pos]. *)
Definition hit {A : Type} (pos : Z) (g : A -> A) (p : nat) (c : A) : A :=
  if (p =? Z.to_nat pos)%nat then g c else c.

(** The element at [pos] of the buffer of [v] in [h], as the accessor of
    [v] reads it. *)
Definition element `{Conversions} (h : heap) (v : rt_variable_t) (pos : Z) : F32.t :=
  match load (data v) pos h with
  | Ok c => decode (type v) c
  | Fault _ => F32.zero
  end.

(** The buffer at [p] holds at least [n] elements. *)
Definition covers (h : heap) (p n : Z) : bool :=
  match h !! p with
  | Some b => n <=? Z.of_nat (length b)
  | None => false
  end.

(** The conditions under which a run is defined: the extents are not
    negative, the rows cover the output exactly, no index overflows an
    [int], every buffer holds the elements the loops reach, and the
    output buffer is none of the buffers read. *)
Definition exec_ready (pimpl : affine_impl_t) (h : heap) : bool :=
  (0 <=? base_loop_size pimpl) && (0 <=? input_loop_size pimpl) &&
  (0 <=? output_loop_size pimpl) &&
  (output_size pimpl =? base_loop_size pimpl * output_loop_size pimpl) &&
  (base_loop_size pimpl * input_loop_size pimpl <? Int.half_modulus) &&
  (input_loop_size pimpl * output_loop_size pimpl <? Int.half_modulus) &&
  (base_loop_size pimpl * output_loop_size pimpl <? Int.half_modulus) &&
  covers h (data (input pimpl)) (base_loop_size pimpl * input_loop_size pimpl) &&
  covers h (data (weight pimpl)) (input_loop_size pimpl * output_loop_size pimpl) &&
  covers h (data (output pimpl)) (output_size pimpl) &&
  negb (data (input pimpl) =? data (output pimpl)) &&
  negb (data (weight pimpl) =? data (output pimpl)) &&
  match bias pimpl with
  | Some b => covers h (data b) (output_loop_size pimpl) &&
              negb (data b =? data (output pimpl))
  | None => true
  end.

Section Cells.

Context `{Conversions}.
Variable pimpl : affine_impl_t.
Variable h : heap.

Let enc : F32.t -> F32.t := encode (type (output pimpl)).
Let dec : F32.t -> F32.t := decode (type (output pimpl)).

(** The stages of a run, seen from the element at index [p] of the output
    buffer: [c] is the element before the stage, the result the element
    after it. *)
Definition cell_clear (p : nat) (c : F32.t) : F32.t :=
  fold_loop 0 (output_size pimpl) (fun i => hit i (fun _ => enc F32.zero) p) c.

Definition cell_mac (k j : Z) (p : nat) (c : F32.t) : F32.t :=
  let output_offset := Int.mul k (output_loop_size pimpl) in
  let input_offset := Int.mul k (input_loop_size pimpl) in
  let ipos := Int.add input_offset j in
  let weight_offset := Int.mul j (output_loop_size pimpl) in
  let u := element h (input pimpl) ipos in
  fold_loop 0 (output_loop_size pimpl) (fun i =>
    let opos := Int.add output_offset i in
    let wpos := Int.add weight_offset i in
    let w := element h (weight pimpl) wpos in
    hit opos (fun value => enc (F32.add (dec value) (F32.mul u w))) p) c.

Definition cell_weight (k : Z) (p : nat) (c : F32.t) : F32.t :=
  fold_loop 0 (input_loop_size pimpl) (fun j => cell_mac k j p) c.

Definition cell_bias (k : Z) (p : nat) (c : F32.t) : F32.t :=
  let output_offset := Int.mul k (output_loop_size pimpl) in
  match bias pimpl with
  | Some b =>
      fold_loop 0 (output_loop_size pimpl) (fun i =>
        let opos := Int.add output_offset i in
        hit opos (fun o => enc (F32.add (dec o) (element h b i))) p) c
  | None => c
  end.

Definition cell_row (k : Z) (p : nat) (c : F32.t) : F32.t :=
  cell_bias k p (cell_weight k p c).

Definition exec_cell (p : nat) (c : F32.t) : F32.t :=
  fold_loop 0 (base_loop_size pimpl) (fun k => cell_row k p) (cell_clear p c).

End Cells.

(** The element [i] of row [k] of the output after a run, for an output
    of any type: the accumulation over the input features, from the
    stored zero, every step through the accessors of the output, then the
    bias. *)
Definition row_cell `{Conversions} (pimpl : affine_impl_t) (h : heap) (k i : Z) : F32.t :=
  let enc := encode (type (output pimpl)) in
  let dec := decode (type (output pimpl)) in
  let acc :=
    fold_loop 0 (input_loop_size pimpl) (fun j c =>
      enc (F32.add (dec c)
             (F32.mul (element h (input pimpl) (k * input_loop_size pimpl + j))
                      (element h (weight pimpl) (j * output_loop_size pimpl + i)))))
      (enc F32.zero) in
  match bias pimpl with
  | Some b => enc (F32.add (dec acc) (element h b i))
  | None => acc
  end.

(** The sum over [j] of [input[k,j] * weight[j,i]], added up from [+0.0]
    in the order [j = 0, 1, ...]. *)
Definition dot_row `{Conversions} (pimpl : affine_impl_t) (h : heap) (k i : Z) : F32.t :=
  foldl (fun acc j =>
           F32.add acc
             (F32.mul (element h (input pimpl) (k * input_loop_size pimpl + j))
                      (element h (weight pimpl) (j * output_loop_size pimpl + i))))
        F32.zero (seqZ 0 (input_loop_size pimpl)).

(** [output[k,i]] in the words of the specification: the sum, plus
    [bias[i]] when a bias is bound. *)
Definition affine_value `{Conversions} (pimpl : affine_impl_t) (h : heap) (k i : Z) : F32.t :=
  match bias pimpl with
  | Some b => F32.add (dot_row pimpl h k i) (element h b i)
  | None => dot_row pimpl h k i
  end.

(** The first [n] elements of the buffer of [vb] read as a zero. *)
Definition zero_bias `{Conversions} (h : heap) (vb : rt_variable_t) (n : Z) : bool :=
  forallb (fun i => F32.is_zero (element h vb i)) (seqZ 0 n).

(** A finite float has an exponent of at least [emin]. *)
Definition bounded_exp (prec emax : Z) (x : spec_float) : Prop :=
  match x with
  | S754_finite _ _ e => emin prec emax <= e
  | _ => True
  end.

(** Not the negative zero, and of bounded exponent. *)
Definition settled (prec emax : Z) (x : spec_float) : Prop :=
  x <> S754_zero true /\ bounded_exp prec emax x.

(** The same, for binary32. *)
Definition f32_settled : F32.t -> Prop := settled F32.prec F32.emax.

(** ** The loop bodies of the Generic strategy *)

Section GenericBodies.

Context `{Conversions}.
Variable pimpl : affine_impl_t.

(** The body of the loop over the output features [i], for row [k],
    input feature [j] and its value [u]. *)
Definition generic_mac (k j : Z) (u : F32.t) (i : Z) (t : heap) : result heap :=
  let opos := Int.add (Int.mul k (output_loop_size pimpl)) i in
  let wpos := Int.add (Int.mul j (output_loop_size pimpl)) i in
  w ← get_weight pimpl (weight pimpl) wpos t;
  value ← get_output pimpl (output pimpl) opos t;
  set_output pimpl (output pimpl) opos (F32.add value (F32.mul u w)) t.

(** The body of the loop over the input features [j], for row [k]. *)
Definition generic_feature (k j : Z) (t : heap) : result heap :=
  let ipos := Int.add (Int.mul k (input_loop_size pimpl)) j in
  u ← get_input pimpl (input pimpl) ipos t;
  for_loop 0 (output_loop_size pimpl) (generic_mac k j u) t.

(** The body of the bias loop, for row [k] and the bias Variable [b]. *)
Definition generic_bias (k : Z) (b : rt_variable_t) (i : Z) (t : heap) : result heap :=
  let opos := Int.add (Int.mul k (output_loop_size pimpl)) i in
  o ← get_output pimpl (output pimpl) opos t;
  c ← call_get_bias pimpl b i t;
  set_output pimpl (output pimpl) opos (F32.add o c) t.

(** The body of the loop over the rows [k]. *)
Definition generic_row (k : Z) (t : heap) : result heap :=
  t ← for_loop 0 (input_loop_size pimpl) (generic_feature k) t;
  match bias pimpl with
  | Some b => for_loop 0 (output_loop_size pimpl) (generic_bias k b) t
  | None => Ok t
  end.

(** The clearing loop. *)
Definition generic_clear (t : heap) : result heap :=
  for_loop 0 (output_size pimpl)
    (fun i t => set_output pimpl (output pimpl) i F32.zero t) t.

End GenericBodies.

(** ** The end-to-end scenario *)

Module Scenario.

(** Conversions that keep the stored code as it is. *)
Definition raw_codes : Conversions :=
  {| dequantize := fun _ c => c; quantize := fun _ x => x |}.

Definition v_input : rt_variable_t :=
  {| type := NN_DATA_TYPE_FLOAT; shape := [2; 3]; data := 100 |}.
Definition v_weight : rt_variable_t :=
  {| type := NN_DATA_TYPE_FLOAT; shape := [3; 4]; data := 200 |}.
Definition v_bias : rt_variable_t :=
  {| type := NN_DATA_TYPE_FLOAT; shape := [4]; data := 300 |}.
Definition v_output : rt_variable_t :=
  {| type := NN_DATA_TYPE_FLOAT; shape := [2; 4]; data := 400 |}.

Definition f : rt_function_t :=
  {| num_of_inputs := 3; inputs := [v_input; v_weight; v_bias];
     num_of_outputs := 1; outputs := [v_output];
     config := {| base_axis := 1 |} |}.

Definition floats (l : list Z) : list F32.t := F32.of_Z <$> l.

Definition mem (out : list F32.t) : heap :=
  <[100 := floats [1; 2; 3; 4; 5; 6]]>
  (<[200 := floats [1; 0; 0; 0; 0; 1; 0; 0; 0; 0; 1; 0]]>
  (<[300 := floats [1; 1; 1; 1]]>
  (<[400 := out]> ∅))).

(** The output buffer before and after the run. *)
Definition stale : list F32.t := floats [9; 9; 9; 9; 9; 9; 9; 9].
Definition expected : list F32.t := floats [2; 3; 4; 1; 5; 6; 7; 1].

(** The state that binding [f] builds, with or without a bias. *)
Definition impl (b : option rt_variable_t) : affine_impl_t :=
  {| impl_config := {| base_axis := 1 |};
     input := v_input;
     get_input := select_getter (H := raw_codes) v_input;
     weight := v_weight;
     get_weight := select_getter (H := raw_codes) v_weight;
     bias := b;
     get_bias := select_getter (H := raw_codes) <$> b;
     output := v_output;
     output_size := 8;
     set_output := select_setter (H := raw_codes) v_output;
     get_output := select_getter (H := raw_codes) v_output;
     base_loop_size := 2;
     input_loop_size := 3;
     output_loop_size := 4 |}.

Definition pimpl : affine_impl_t := impl (Some v_bias).

(** The same function without its bias, and an all-zero bias for it. *)
Definition f_no_bias : rt_function_t :=
  {| num_of_inputs := 2; inputs := [v_input; v_weight];
     num_of_outputs := 1; outputs := [v_output];
     config := {| base_axis := 1 |} |}.

Definition v_zero_bias : rt_variable_t :=
  {| type := NN_DATA_TYPE_FLOAT; shape := [4]; data := 500 |}.

Definition mem_zero_bias : heap := <[500 := floats [0; 0; 0; 0]]> (mem stale).

(** A weight of 5 elements and a bias of 7, where the extents ask for 12
    and 4. *)
Definition f_wrong_counts : rt_function_t :=
  {| num_of_inputs := 3;
     inputs := [v_input; reshape [5] v_weight; reshape [7] v_bias];
     num_of_outputs := 1; outputs := [v_output];
     config := {| base_axis := 1 |} |}.

(** A [base_axis] of 3 for an input of rank 2. *)
Definition f_axis : rt_function_t :=
  {| num_of_inputs := 3; inputs := [v_input; v_weight; v_bias];
     num_of_outputs := 1; outputs := [v_output];
     config := {| base_axis := 3 |} |}.

(** An input and an output with an empty leading dimension. *)
Definition v_empty_input : rt_variable_t :=
  {| type := NN_DATA_TYPE_FLOAT; shape := [0; 3]; data := 100 |}.
Definition v_empty_output : rt_variable_t :=
  {| type := NN_DATA_TYPE_FLOAT; shape := [0; 4]; data := 400 |}.

Definition f_empty : rt_function_t :=
  {| num_of_inputs := 3; inputs := [v_empty_input; v_weight; v_bias];
     num_of_outputs := 1; outputs := [v_empty_output];
     config := {| base_axis := 1 |} |}.

Definition pimpl_empty : affine_impl_t :=
  {| impl_config := {| base_axis := 1 |};
     input := v_empty_input;
     get_input := select_getter (H := raw_codes) v_empty_input;
     weight := v_weight;
     get_weight := select_getter (H := raw_codes) v_weight;
     bias := Some v_bias;
     get_bias := Some (select_getter (H := raw_codes) v_bias);
     output := v_empty_output;
     output_size := 0;
     set_output := select_setter (H := raw_codes) v_empty_output;
     get_output := select_getter (H := raw_codes) v_empty_output;
     base_loop_size := 0;
     input_loop_size := 3;
     output_loop_size := 4 |}.

End Scenario.

(** ** Further concrete kernels and memories *)

Module Cases.

(** The state that binding [f] builds (the state of the scenario when
    the bind faults). *)
Definition bound (f : rt_function_t) : affine_impl_t :=
  match allocate_affine_config (H := Scenario.raw_codes) f with
  | Ok pimpl => pimpl
  | Fault _ => Scenario.pimpl
  end.

Definition function (base_axis : Z) (vin vout : rt_variable_t) : rt_function_t :=
  {| num_of_inputs := 3; inputs := [vin; Scenario.v_weight; Scenario.v_bias];
     num_of_outputs := 1; outputs := [vout];
     config := {| base_axis := base_axis |} |}.

(** [base_axis] at the rank of the input and past the rank of the output. *)
Definition v_flat_output : rt_variable_t :=
  {| type := NN_DATA_TYPE_FLOAT; shape := [6]; data := 400 |}.
Definition f_flat : rt_function_t := function 2 Scenario.v_input v_flat_output.

(** No row in the input, two rows in the output. *)
Definition f_no_rows : rt_function_t :=
  function 1 Scenario.v_empty_input Scenario.v_output.

(** No input feature. *)
Definition v_no_features : rt_variable_t :=
  {| type := NN_DATA_TYPE_FLOAT; shape := [2; 0]; data := 100 |}.
Definition f_no_features : rt_function_t :=
  function 1 v_no_features Scenario.v_output.

(** An output of another type than Float32. *)
Definition v_coded_output : rt_variable_t :=
  {| type := NN_DATA_TYPE_OTHER 8; shape := [2; 4]; data := 400 |}.
Definition f_coded : rt_function_t := function 1 Scenario.v_input v_coded_output.

(** The memory of the scenario with another input buffer and another
    output buffer. *)
Definition mem (inp out : list F32.t) : heap :=
  <[100 := inp]> (Scenario.mem out).

Definition input_short : list F32.t := Scenario.floats [1; 2; 3; 4; 5].
Definition input_other_row : list F32.t := Scenario.floats [1; 2; 3; 7; 8; 9].
Definition input_twice : list F32.t := Scenario.floats [1; 2; 3; 1; 2; 3].
Definition input_nan : list F32.t :=
  [F32.of_Z 1; S754_nan; F32.of_Z 3; F32.of_Z 4; F32.of_Z 5; F32.of_Z 6].
Definition output_short : list F32.t := Scenario.floats [9; 9; 9].
Definition output_long : list F32.t := Scenario.floats [9; 9; 9; 9; 9; 9; 9; 9; 5; 5].

(** Two rows in the input, one row in the shape of the output. *)
Definition v_one_row_output : rt_variable_t :=
  {| type := NN_DATA_TYPE_FLOAT; shape := [1; 4]; data := 400 |}.
Definition f_one_row : rt_function_t := function 1 Scenario.v_input v_one_row_output.

(** The long output buffer after a run of [f_one_row]: the first row is
    cleared and written, the second row is added to what was there. *)
Definition output_one_row : list F32.t :=
  Scenario.floats [2; 3; 4; 1; 14; 15; 16; 10; 5; 5].

End Cases.

(** * Properties *)

(** ** Wrap-around arithmetic *)

Module IntFacts.

Lemma modulus_eq : Int.modulus = 2 * Int.half_modulus.
Proof. reflexivity. Qed.

Lemma half_modulus_pos : 0 < Int.half_modulus.
Proof. reflexivity. Qed.

Lemma wrap_range z : Int.in_range (Int.wrap z).
Proof.
  unfold Int.in_range, Int.wrap.
  pose proof (Z.mod_pos_bound (z + Int.half_modulus) Int.modulus eq_refl) as Hm.
  rewrite modulus_eq in *. lia.
Qed.

Lemma wrap_small z : Int.in_range z -> Int.wrap z = z.
Proof.
  unfold Int.in_range, Int.wrap. intros Hz.
  rewrite Z.mod_small; [lia|]. rewrite modulus_eq. lia.
Qed.

Lemma wrap_mod z : Int.wrap z mod Int.modulus = z mod Int.modulus.
Proof.
  unfold Int.wrap.
  rewrite <- (Zminus_mod_idemp_l _ Int.half_modulus).
  rewrite Z.mod_mod by discriminate.
  rewrite Zminus_mod_idemp_l. f_equal. lia.
Qed.

Lemma wrap_ext a b : a mod Int.modulus = b mod Int.modulus -> Int.wrap a = Int.wrap b.
Proof.
  intros Hab. unfold Int.wrap.
  rewrite <- (Zplus_mod_idemp_l a), <- (Zplus_mod_idemp_l b), Hab. reflexivity.
Qed.

Lemma wrap_wrap z : Int.wrap (Int.wrap z) = Int.wrap z.
Proof. apply wrap_small, wrap_range. Qed.

Lemma wrap_mul_l a b : Int.wrap (Int.wrap a * b) = Int.wrap (a * b).
Proof.
  apply wrap_ext.
  rewrite <- Zmult_mod_idemp_l, wrap_mod, Zmult_mod_idemp_l. reflexivity.
Qed.

Lemma wrap_mul_r a b : Int.wrap (a * Int.wrap b) = Int.wrap (a * b).
Proof. rewrite (Z.mul_comm a), wrap_mul_l, Z.mul_comm. reflexivity. Qed.

Lemma mul_small a b : Int.in_range (a * b) -> Int.mul a b = a * b.
Proof. apply wrap_small. Qed.

Lemma add_small a b : Int.in_range (a + b) -> Int.add a b = a + b.
Proof. apply wrap_small. Qed.

End IntFacts.

Lemma fold_mul_wrap (s : rt_list_t) (a : Z) :
  fold_left Int.mul s (Int.wrap a) = Int.wrap (a * shape_product s).
Proof.
  revert a. induction s as [|d s IH]; intros a; simpl.
  - f_equal. lia.
  - unfold Int.mul at 2. rewrite IntFacts.wrap_mul_l, IH. f_equal. lia.
Qed.

Lemma calc_shape_size_product (s : rt_list_t) :
  calc_shape_size s = Int.wrap (shape_product s).
Proof.
  unfold calc_shape_size. change 1 with (Int.wrap 1) at 1.
  rewrite fold_mul_wrap. f_equal. lia.
Qed.

Lemma shape_product_app (s1 s2 : rt_list_t) :
  shape_product (s1 ++ s2) = shape_product s1 * shape_product s2.
Proof.
  induction s1 as [|d s1 IH]; simpl.
  - destruct (shape_product s2); reflexivity.
  - rewrite IH. lia.
Qed.

Lemma shape_product_nonneg (s : rt_list_t) :
  Forall (fun d => 0 <= d) s -> 0 <= shape_product s.
Proof.
  induction 1 as [|d s Hd _ IH]; simpl; [lia|]. apply Z.mul_nonneg_nonneg; assumption.
Qed.

(** ** Loops *)

Lemma for_from_ext {S : Type} (body1 body2 : Z -> S -> result S) count i s :
  (forall j s', i <= j < i + Z.of_nat count -> body1 j s' = body2 j s') ->
  for_from count i body1 s = for_from count i body2 s.
Proof.
  revert i s. induction count as [|count IH]; intros i s Hb; simpl; [reflexivity|].
  rewrite Hb by lia. destruct (body2 i s) as [s'|e]; simpl; [|reflexivity].
  apply IH. intros j s'' Hj. apply Hb. lia.
Qed.

Lemma for_loop_ext {S : Type} (body1 body2 : Z -> S -> result S) lo hi s :
  (forall j s', lo <= j < hi -> body1 j s' = body2 j s') ->
  for_loop lo hi body1 s = for_loop lo hi body2 s.
Proof.
  intros Hb. unfold for_loop. apply for_from_ext. intros j s' Hj. apply Hb. lia.
Qed.

Lemma for_loop_empty {S : Type} (body : Z -> S -> result S) lo hi s :
  hi <= lo -> for_loop lo hi body s = Ok s.
Proof.
  intros Hle. unfold for_loop. replace (Z.to_nat (hi - lo)) with O by lia. reflexivity.
Qed.

(** A property that every successful iteration keeps holds after the loop. *)
Lemma for_from_preserves {S : Type} (P : S -> Prop) (body : Z -> S -> result S) count i s s' :
  (forall j t t', P t -> body j t = Ok t' -> P t') ->
  P s -> for_from count i body s = Ok s' -> P s'.
Proof.
  intros Hb. revert i s. induction count as [|count IH]; intros i s Hs; simpl.
  - intros [= <-]. exact Hs.
  - destruct (body i s) as [t|e] eqn:Hbody; simpl; [|discriminate].
    apply IH. eapply Hb; eassumption.
Qed.

(** A loop whose iterations may only fault with [e] faults with [e]. *)
Lemma for_from_fault {S : Type} (e0 : fault) (body : Z -> S -> result S) count i s e :
  (forall j t e', body j t = Fault e' -> e' = e0) ->
  for_from count i body s = Fault e -> e = e0.
Proof.
  intros Hb. revert i s. induction count as [|count IH]; intros i s; simpl; [discriminate|].
  destruct (body i s) as [t|e'] eqn:Hbody; simpl.
  - apply IH.
  - intros [= <-]. eapply Hb. eassumption.
Qed.

(** ** Bind: [allocate_affine_config] *)

Section Bind.

Context `{Conversions}.

Ltac step_result :=
  match goal with
  | |- context [mbind _ ?m] =>
      let E := fresh "E" in destruct m eqn:E; simpl
  end.

Lemma rt_list_data_fault (s : rt_list_t) i e :
  rt_list_data s i = Fault e -> e = UndefinedBehaviour.
Proof.
  unfold rt_list_data. destruct (i <? 0); [congruence|].
  destruct (s !! Z.to_nat i); congruence.
Qed.

Lemma rt_list_data_ok (s : rt_list_t) i d :
  0 <= i -> s !! Z.to_nat i = Some d -> rt_list_data s i = Ok d.
Proof.
  intros Hi Hd. unfold rt_list_data.
  destruct (Z.ltb_spec i 0) as [|_]; [lia|]. rewrite Hd. reflexivity.
Qed.

Lemma rt_list_data_neg (s : rt_list_t) i :
  i < 0 -> rt_list_data s i = Fault UndefinedBehaviour.
Proof.
  intros Hi. unfold rt_list_data.
  destruct (Z.ltb_spec i 0) as [_|]; [reflexivity|lia].
Qed.

Lemma shape_loop_fault (s : rt_list_t) lo hi e :
  shape_loop s lo hi = Fault e -> e = UndefinedBehaviour.
Proof.
  unfold shape_loop, for_loop. apply for_from_fault.
  intros j t e'. destruct (rt_list_data s j) as [d|e''] eqn:Hd; simpl; [discriminate|].
  intros [= <-]. eapply rt_list_data_fault. eassumption.
Qed.

Lemma variable_at_fault (vs : list rt_variable_t) i e :
  variable_at vs i = Fault e -> e = UndefinedBehaviour.
Proof. unfold variable_at. destruct (vs !! i); congruence. Qed.

Lemma shape_loop_from (s : rt_list_t) count i acc :
  0 <= i -> i + Z.of_nat count <= rt_list_size s ->
  for_from count i (fun i acc => d ← rt_list_data s i; Ok (Int.mul acc d)) acc
  = Ok (fold_left Int.mul (take count (drop (Z.to_nat i) s)) acc).
Proof.
  unfold rt_list_size. revert i acc.
  induction count as [|count IH]; intros i acc Hi Hlen; simpl; [reflexivity|].
  destruct (lookup_lt_is_Some_2 s (Z.to_nat i)) as [d Hd]; [lia|].
  rewrite (rt_list_data_ok _ _ _ Hi Hd). simpl. rewrite IH by lia.
  rewrite (drop_S _ _ _ Hd). simpl.
  replace (Z.to_nat (i + 1)) with (Datatypes.S (Z.to_nat i)) by lia. reflexivity.
Qed.

Lemma shape_loop_prefix (s : rt_list_t) n :
  0 <= n <= rt_list_size s ->
  shape_loop s 0 n = Ok (Int.wrap (shape_product (take (Z.to_nat n) s))).
Proof.
  intros Hn. unfold shape_loop, for_loop.
  rewrite shape_loop_from by lia.
  rewrite Z.sub_0_r. change (Z.to_nat 0) with O. rewrite drop_0.
  change 1 with (Int.wrap 1) at 1. rewrite fold_mul_wrap. do 2 f_equal. lia.
Qed.

Lemma shape_loop_suffix (s : rt_list_t) n :
  0 <= n ->
  shape_loop s n (rt_list_size s) = Ok (Int.wrap (shape_product (drop (Z.to_nat n) s))).
Proof.
  intros Hn. unfold shape_loop, for_loop.
  destruct (Z.le_gt_cases n (rt_list_size s)) as [Hle|Hgt].
  - rewrite shape_loop_from by lia.
    rewrite take_ge by (rewrite length_drop; unfold rt_list_size; lia).
    change 1 with (Int.wrap 1) at 1. rewrite fold_mul_wrap. do 2 f_equal. lia.
  - replace (Z.to_nat (rt_list_size s - n)) with O by lia. simpl.
    rewrite drop_ge by (unfold rt_list_size in Hgt; lia). reflexivity.
Qed.

Lemma allocate_affine_config_resolved f pimpl :
  allocate_affine_config f = Ok pimpl -> resolved f pimpl.
Proof.
  unfold allocate_affine_config, assert, variable_at.
  destruct ((num_of_inputs f =? 2) || (num_of_inputs f =? 3)); simpl; [|discriminate].
  destruct (num_of_outputs f =? 1); simpl; [|discriminate].
  destruct (inputs f !! 0%nat) as [vin|] eqn:Hin; simpl; [|discriminate].
  destruct (inputs f !! 1%nat) as [vw|] eqn:Hw; simpl; [|discriminate].
  destruct (outputs f !! 0%nat) as [vout|] eqn:Hout; simpl; [|discriminate].
  assert (exists ob, (if 2 <? num_of_inputs f
                 then b ← match inputs f !! 2%nat with
                          | Some v => Ok v
                          | None => Fault UndefinedBehaviour
                          end; Ok (Some b)
                 else Ok None) = ob /\
                (forall b, ob = Ok b ->
                   b = if 2 <? num_of_inputs f then inputs f !! 2%nat else None))
    as (ob & -> & Hob).
  { eexists. split; [reflexivity|]. intros b.
    destruct (2 <? num_of_inputs f); [|congruence].
    destruct (inputs f !! 2%nat); simpl; congruence. }
  destruct ob as [b|]; simpl; [|discriminate].
  specialize (Hob b eq_refl).
  repeat (step_result; [|discriminate]).
  intros [= <-]. unfold resolved. simpl. tauto.
Qed.

Lemma shape_loop_start (s : rt_list_t) lo hi x :
  shape_loop s lo hi = Ok x -> lo < hi -> 0 <= lo.
Proof.
  unfold shape_loop, for_loop. intros Hx Hlt.
  destruct (Z.to_nat (hi - lo)) as [|count] eqn:Hc; [lia|]. simpl in Hx.
  destruct (Z.lt_ge_cases lo 0) as [Hneg|Hpos]; [|exact Hpos].
  rewrite rt_list_data_neg in Hx by exact Hneg. discriminate.
Qed.

Lemma allocate_affine_config_axis f pimpl :
  allocate_affine_config f = Ok pimpl -> 0 <= base_axis (config f).
Proof.
  intros Hb. apply allocate_affine_config_resolved in Hb.
  destruct Hb as (_ & _ & _ & _ & _ & _ & _ & _ & _ & _ & _ & _ & Hin & _).
  destruct (Z.le_gt_cases 0 (base_axis (config f))) as [Hle|Hgt]; [exact Hle|].
  eapply shape_loop_start; [exact Hin|]. unfold rt_list_size. lia.
Qed.

(** When the leading dimensions of the output multiply to
    [base_loop_size], the rows cover the output exactly. *)
Lemma allocate_affine_config_rows_cover f pimpl :
  allocate_affine_config f = Ok pimpl ->
  Int.wrap (shape_product (take (Z.to_nat (base_axis (config f))) (shape (output pimpl))))
    = base_loop_size pimpl ->
  output_size pimpl = Int.mul (base_loop_size pimpl) (output_loop_size pimpl).
Proof.
  intros Hb Hlead. pose proof (allocate_affine_config_axis _ _ Hb) as Hax.
  apply allocate_affine_config_resolved in Hb.
  destruct Hb as (_ & _ & _ & _ & _ & _ & _ & _ & _ & Hsize & _ & _ & _ & Hout).
  rewrite shape_loop_suffix in Hout by exact Hax. injection Hout as Hout.
  rewrite Hsize, calc_shape_size_product, <- Hlead, <- Hout.
  unfold Int.mul. rewrite IntFacts.wrap_mul_l, IntFacts.wrap_mul_r.
  rewrite <- shape_product_app, take_drop. reflexivity.
Qed.

Lemma allocate_affine_config_ok f vin vw vout :
  num_of_inputs f = 2 \/ num_of_inputs f = 3 ->
  num_of_outputs f = 1 ->
  inputs f !! 0%nat = Some vin ->
  inputs f !! 1%nat = Some vw ->
  outputs f !! 0%nat = Some vout ->
  (num_of_inputs f = 3 -> is_Some (inputs f !! 2%nat)) ->
  0 <= base_axis (config f) <= rt_list_size (shape vin) ->
  exists pimpl,
    allocate_affine_config f = Ok pimpl /\
    input pimpl = vin /\ weight pimpl = vw /\ output pimpl = vout /\
    base_loop_size pimpl
      = Int.wrap (shape_product (take (Z.to_nat (base_axis (config f))) (shape vin))) /\
    input_loop_size pimpl
      = Int.wrap (shape_product (drop (Z.to_nat (base_axis (config f))) (shape vin))) /\
    output_loop_size pimpl
      = Int.wrap (shape_product (drop (Z.to_nat (base_axis (config f))) (shape vout))) /\
    output_size pimpl = Int.wrap (shape_product (shape vout)).
Proof.
  intros Hn Hm Hin Hw Hout Hb Hax.
  unfold allocate_affine_config, assert, variable_at.
  replace ((num_of_inputs f =? 2) || (num_of_inputs f =? 3)) with true
    by (destruct Hn as [-> | ->]; reflexivity).
  rewrite Hm, Hin, Hw, Hout. simpl.
  rewrite shape_loop_prefix, !shape_loop_suffix by lia.
  destruct Hn as [Hn|Hn]; rewrite Hn; simpl.
  - eexists. split; [reflexivity|]. simpl.
    rewrite calc_shape_size_product. tauto.
  - destruct (Hb Hn) as [vb Hvb]. rewrite Hvb. simpl.
    eexists. split; [reflexivity|]. simpl.
    rewrite calc_shape_size_product. tauto.
Qed.

End Bind.

Section BindProperties.

Context `{Conversions}.

Lemma is_float_true ty : is_float ty = true <-> ty = NN_DATA_TYPE_FLOAT.
Proof. destruct ty; simpl; split; congruence. Qed.

Lemma select_strategy_direct pimpl :
  select_strategy pimpl = Direct <-> uniformly_float32 pimpl.
Proof.
  unfold select_strategy, uniformly_float32.
  destruct (type (input pimpl)), (type (output pimpl)), (type (weight pimpl)); simpl;
    try (split; [discriminate | intros (? & ? & ? & ?); discriminate]).
  destruct (bias pimpl) as [b|]; [destruct (type b) eqn:Hb|]; simpl.
  - split; [|reflexivity]. intros _. repeat split. right. exists b. split; [reflexivity|exact Hb].
  - split; [discriminate|].
    intros (_ & _ & _ & [Hn | (b' & [= <-] & Hb')]); congruence.
  - split; [|reflexivity]. intros _. repeat split. left. reflexivity.
Qed.


Lemma bias_lookup_fault (f : rt_function_t) e :
  (if 2 <? num_of_inputs f
   then b ← variable_at (inputs f) 2; Ok (Some b)
   else Ok None) = Fault e -> e = UndefinedBehaviour.
Proof.
  destruct (2 <? num_of_inputs f); [|discriminate].
  destruct (variable_at (inputs f) 2) as [b|e'] eqn:Hb; simpl; [discriminate|].
  intros [= <-]. eapply variable_at_fault. eassumption.
Qed.

(** C6, as the code has it: bind fails its assertions exactly when the
    number of inputs is neither 2 nor 3 or the number of outputs is not 1,
    and then builds no state; it has no check of [base_axis]. *)
Theorem allocate_affine_config_arity (f : rt_function_t) :
  allocate_affine_config f = Fault AssertionFailed <->
  ~ ((num_of_inputs f = 2 \/ num_of_inputs f = 3) /\ num_of_outputs f = 1).
Proof.
  unfold allocate_affine_config, assert.
  destruct (Z.eqb_spec (num_of_inputs f) 2) as [H2|H2];
    destruct (Z.eqb_spec (num_of_inputs f) 3) as [H3|H3]; simpl;
    try (split; [intros _; lia | reflexivity]);
    (destruct (Z.eqb_spec (num_of_outputs f) 1) as [H1|H1]; simpl;
     [|split; [intros _; lia | reflexivity]]);
    (split; [|intros Hn; exfalso; apply Hn; lia]);
    intros Hf; exfalso; revert Hf;
    repeat match goal with
      | |- context [mbind _ ?m] =>
          let E := fresh "E" in
          destruct m as [?|[|]] eqn:E; simpl;
          [| try discriminate;
             first [ apply variable_at_fault in E; discriminate
                   | apply shape_loop_fault in E; discriminate
                   | apply bias_lookup_fault in E; discriminate
                   | idtac ]
           | discriminate ]
      end; try discriminate.
Qed.

End BindProperties.

Section Extents.

Context `{Conversions}.

Lemma wrapped_factors_exact p1 p2 :
  0 <= p1 -> 0 <= p2 -> p1 * p2 < Int.half_modulus ->
  Int.wrap p1 * Int.wrap p2 = p1 * p2.
Proof.
  intros H1 H2 Hlt. pose proof IntFacts.half_modulus_pos as Hpos.
  destruct (Z.eq_dec p1 0) as [->|N1]; [reflexivity|].
  destruct (Z.eq_dec p2 0) as [->|N2]; [rewrite !Z.mul_0_r; reflexivity|].
  rewrite !IntFacts.wrap_small; [reflexivity| |]; unfold Int.in_range; nia.
Qed.

(** C4: with [0 <= base_axis <= rank] of the input, bind succeeds and its
    extents satisfy [base_loop_size * input_loop_size = product of the
    input shape]; when the leading dimensions of the output multiply to
    [base_loop_size], also [base_loop_size * output_loop_size = product of
    the output shape = output_size].  The equations hold on C [int], and
    on unbounded integers when the product fits an [int]. *)
Theorem allocate_affine_config_extents (f : rt_function_t) (vin vw vout : rt_variable_t) :
  num_of_inputs f = 2 \/ num_of_inputs f = 3 ->
  num_of_outputs f = 1 ->
  inputs f !! 0%nat = Some vin ->
  inputs f !! 1%nat = Some vw ->
  outputs f !! 0%nat = Some vout ->
  (num_of_inputs f = 3 -> is_Some (inputs f !! 2%nat)) ->
  0 <= base_axis (config f) <= rt_list_size (shape vin) ->
  exists pimpl,
    allocate_affine_config f = Ok pimpl /\
    base_loop_size pimpl
      = Int.wrap (shape_product (take (Z.to_nat (base_axis (config f))) (shape vin))) /\
    Int.mul (base_loop_size pimpl) (input_loop_size pimpl)
      = Int.wrap (shape_product (shape vin)) /\
    (Forall (fun d => 0 <= d) (shape vin) ->
     shape_product (shape vin) < Int.half_modulus ->
     base_loop_size pimpl * input_loop_size pimpl = shape_product (shape vin)) /\
    (Int.wrap (shape_product (take (Z.to_nat (base_axis (config f))) (shape vout)))
       = base_loop_size pimpl ->
     Int.mul (base_loop_size pimpl) (output_loop_size pimpl)
       = Int.wrap (shape_product (shape vout)) /\
     output_size pimpl = Int.wrap (shape_product (shape vout)) /\
     (Forall (fun d => 0 <= d) (shape vout) ->
      shape_product (shape vout) < Int.half_modulus ->
      base_loop_size pimpl * output_loop_size pimpl = shape_product (shape vout))).
Proof.
  intros Hn Hm Hin Hw Hout Hb Hax.
  destruct (allocate_affine_config_ok f vin vw vout Hn Hm Hin Hw Hout Hb Hax)
    as (pimpl & Hbind & _ & _ & _ & Hbase & Hils & Hols & Hsize).
  exists pimpl. split; [exact Hbind|]. split; [exact Hbase|].
  set (ba := Z.to_nat (base_axis (config f))) in *.
  split; [|split].
  - rewrite Hbase, Hils. unfold Int.mul.
    rewrite IntFacts.wrap_mul_l, IntFacts.wrap_mul_r.
    rewrite <- shape_product_app, take_drop. reflexivity.
  - intros Hpos Hfit. rewrite Hbase, Hils.
    rewrite <- (take_drop ba (shape vin)) in Hfit |- * at 3.
    rewrite shape_product_app in Hfit |- *.
    apply wrapped_factors_exact; [| |exact Hfit].
    + apply shape_product_nonneg, Forall_take, Hpos.
    + apply shape_product_nonneg, Forall_drop, Hpos.
  - intros Hlead. split; [|split].
    + rewrite <- Hlead, Hols. unfold Int.mul.
      rewrite IntFacts.wrap_mul_l, IntFacts.wrap_mul_r.
      rewrite <- shape_product_app, take_drop. reflexivity.
    + exact Hsize.
    + intros Hpos Hfit. rewrite <- Hlead, Hols.
      rewrite <- (take_drop ba (shape vout)) in Hfit |- * at 3.
      rewrite shape_product_app in Hfit |- *.
      apply wrapped_factors_exact; [| |exact Hfit].
      * apply shape_product_nonneg, Forall_take, Hpos.
      * apply shape_product_nonneg, Forall_drop, Hpos.
Qed.

(** C5, as the code has it: bind does not look at the element counts of
    the weight and the bias.  Whether it succeeds, and the extents it
    stores, are the same for every shape of the weight and of the bias. *)
Theorem allocate_affine_config_ignores_counts (f : rt_function_t) (ws bs : rt_list_t) :
  outcome extents (allocate_affine_config (reshape_weight_bias ws bs f))
  = outcome extents (allocate_affine_config f).
Proof.
  unfold allocate_affine_config, reshape_weight_bias, assert, variable_at. simpl.
  set (vs := alter (reshape ws) 1%nat (alter (reshape bs) 2%nat (inputs f))).
  assert (L0 : vs !! 0%nat = inputs f !! 0%nat).
  { unfold vs. rewrite !list_lookup_alter_ne by lia. reflexivity. }
  assert (L1 : vs !! 1%nat = reshape ws <$> inputs f !! 1%nat).
  { unfold vs. rewrite list_lookup_alter, list_lookup_alter_ne by lia. reflexivity. }
  assert (L2 : vs !! 2%nat = reshape bs <$> inputs f !! 2%nat).
  { unfold vs. rewrite list_lookup_alter_ne by lia. rewrite list_lookup_alter. reflexivity. }
  clearbody vs.
  destruct ((num_of_inputs f =? 2) || (num_of_inputs f =? 3)); simpl; [|reflexivity].
  destruct (num_of_outputs f =? 1); simpl; [|reflexivity].
  rewrite L0. destruct (inputs f !! 0%nat) as [vin|]; simpl; [|reflexivity].
  rewrite L1. destruct (inputs f !! 1%nat) as [vw|]; simpl; [|reflexivity].
  destruct (outputs f !! 0%nat) as [vout|]; simpl; [|reflexivity].
  destruct (2 <? num_of_inputs f); simpl.
  - rewrite L2. destruct (inputs f !! 2%nat) as [vb|]; simpl; [|reflexivity].
    repeat (match goal with
            | |- context [mbind _ ?m] => destruct m; simpl
            end; [|reflexivity]).
    reflexivity.
  - repeat (match goal with
            | |- context [mbind _ ?m] => destruct m; simpl
            end; [|reflexivity]).
    reflexivity.
Qed.

End Extents.

(** ** Memory *)

Section Memory.

Context `{Conversions}.

Lemma select_getter_load (v v' : rt_variable_t) pos h :
  select_getter v v' pos h = (c ← load (data v') pos h; Ok (decode (type v) c)).
Proof.
  unfold select_getter, decode, get_float, get_other.
  destruct (type v); [|reflexivity].
  destruct (load (data v') pos h); reflexivity.
Qed.

Lemma select_setter_store (v v' : rt_variable_t) pos x h :
  select_setter v v' pos x h = store (data v') pos (encode (type v) x) h.
Proof. unfold select_setter, encode. destruct (type v); reflexivity. Qed.

Lemma store_inv p pos x (h h' : heap) :
  store p pos x h = Ok h' ->
  exists buf, h !! p = Some buf /\ 0 <= pos /\ (Z.to_nat pos < length buf)%nat /\
              h' = <[p := <[Z.to_nat pos := x]> buf]> h.
Proof.
  unfold store. destruct (Z.ltb_spec pos 0) as [|Hpos]; [discriminate|].
  destruct (h !! p) as [buf|]; [|discriminate].
  destruct (Nat.ltb_spec (Z.to_nat pos) (length buf)) as [Hlt|]; [|discriminate].
  intros [= <-]. exists buf. auto.
Qed.

Lemma only_changes_refl out (h : heap) : only_changes out h h.
Proof. split; reflexivity. Qed.

Lemma store_only_changes out pos x (h0 h h' : heap) :
  only_changes out h0 h -> store out pos x h = Ok h' -> only_changes out h0 h'.
Proof.
  intros [Hother Hlen] (buf & Hbuf & _ & _ & ->)%store_inv. split.
  - intros q Hq. rewrite lookup_insert_ne by congruence. apply Hother, Hq.
  - rewrite lookup_insert_eq, <- Hlen, Hbuf. simpl. rewrite length_insert. reflexivity.
Qed.

Lemma for_loop_only_changes out (body : Z -> heap -> result heap) lo hi (h0 h h' : heap) :
  (forall j t t', only_changes out h0 t -> body j t = Ok t' -> only_changes out h0 t') ->
  only_changes out h0 h -> for_loop lo hi body h = Ok h' -> only_changes out h0 h'.
Proof. intros Hb. unfold for_loop. apply for_from_preserves. exact Hb. Qed.

Lemma memset_zero_only_changes out count (h0 h h' : heap) :
  only_changes out h0 h -> memset_zero out count h = Ok h' -> only_changes out h0 h'.
Proof.
  unfold memset_zero. destruct (count <? 0); [discriminate|].
  intros Hh. apply for_loop_only_changes; [|exact Hh].
  intros j t t' Ht. apply store_only_changes, Ht.
Qed.

Ltac bind_ok H :=
  match type of H with
  | mbind _ ?m = Ok _ =>
      let E := fresh "E" in destruct m eqn:E; simpl in H; [|discriminate]
  end.

Lemma exec_affine_float_only_changes pimpl (h h' : heap) :
  exec_affine_float pimpl h = Ok h' -> only_changes (data (output pimpl)) h h'.
Proof.
  unfold exec_affine_float. intros Hx. bind_ok Hx.
  revert Hx. apply for_loop_only_changes.
  - intros k t t' Ht Hk. bind_ok Hk.
    assert (only_changes (data (output pimpl)) h a0) as Ha0.
    { revert E0. apply for_loop_only_changes; [|exact Ht].
      intros j t1 t1' Ht1 Hj. bind_ok Hj.
      revert Hj. apply for_loop_only_changes; [|exact Ht1].
      intros i t2 t2' Ht2 Hi. do 2 bind_ok Hi.
      eapply store_only_changes; eassumption. }
    destruct (bias pimpl) as [b|]; [|congruence].
    revert Hk. apply for_loop_only_changes; [|exact Ha0].
    intros i t2 t2' Ht2 Hi. do 2 bind_ok Hi.
    eapply store_only_changes; eassumption.
  - eapply memset_zero_only_changes; [apply only_changes_refl|exact E].
Qed.

Lemma exec_affine_generic_only_changes pimpl (h h' : heap) :
  set_output pimpl = select_setter (output pimpl) ->
  exec_affine_generic pimpl h = Ok h' -> only_changes (data (output pimpl)) h h'.
Proof.
  intros Hset. unfold exec_affine_generic. rewrite Hset. intros Hx. bind_ok Hx.
  revert Hx. apply for_loop_only_changes.
  - intros k t t' Ht Hk. bind_ok Hk.
    assert (only_changes (data (output pimpl)) h a0) as Ha0.
    { revert E0. apply for_loop_only_changes; [|exact Ht].
      intros j t1 t1' Ht1 Hj. bind_ok Hj.
      revert Hj. apply for_loop_only_changes; [|exact Ht1].
      intros i t2 t2' Ht2 Hi. do 2 bind_ok Hi.
      rewrite select_setter_store in Hi.
      eapply store_only_changes; eassumption. }
    destruct (bias pimpl) as [b|]; [|congruence].
    revert Hk. apply for_loop_only_changes; [|exact Ha0].
    intros i t2 t2' Ht2 Hi. do 2 bind_ok Hi.
    rewrite select_setter_store in Hi.
    eapply store_only_changes; eassumption.
  - revert E. apply for_loop_only_changes; [|apply only_changes_refl].
    intros i t t' Ht Hi. rewrite select_setter_store in Hi.
    eapply store_only_changes; eassumption.
Qed.

(** C8: a run of [exec_affine], by either strategy, changes no buffer but
    the one of the output Variable, and that one keeps its size.  The
    Resolved State is an argument that the run only reads. *)
Theorem exec_affine_frame (f : rt_function_t) (pimpl : affine_impl_t) (h h' : heap) :
  allocate_affine_config f = Ok pimpl ->
  exec_affine pimpl h = Ok h' \/
  exec_affine_float pimpl h = Ok h' \/
  exec_affine_generic pimpl h = Ok h' ->
  (forall q, q <> data (output pimpl) -> h' !! q = h !! q) /\
  length <$> h' !! data (output pimpl) = length <$> h !! data (output pimpl).
Proof.
  intros Hb%allocate_affine_config_resolved Hrun.
  destruct Hb as (_ & _ & _ & _ & _ & _ & _ & _ & Hset & _).
  change (only_changes (data (output pimpl)) h h').
  unfold exec_affine in Hrun.
  destruct Hrun as [Hrun | [Hrun | Hrun]];
    [destruct (select_strategy pimpl)| |];
    first [ apply exec_affine_float_only_changes; exact Hrun
          | apply exec_affine_generic_only_changes; [exact Hset|exact Hrun] ].
Qed.

End Memory.

(** ** The two strategies *)

Section Strategies.

Context `{Conversions}.

Lemma uniformly_float32_getters f pimpl :
  resolved f pimpl -> uniformly_float32 pimpl ->
  get_input pimpl = get_float /\ get_weight pimpl = get_float /\
  get_output pimpl = get_float /\ set_output pimpl = set_float /\
  (forall b, bias pimpl = Some b -> call_get_bias pimpl = get_float).
Proof.
  intros (_ & _ & _ & _ & Hgi & Hgw & Hgb & Hgo & Hso & _) (Ti & Tw & To & Tb).
  rewrite Hgi, Hgw, Hgo, Hso. unfold select_getter, select_setter.
  rewrite Ti, Tw, To. repeat split.
  intros b Hb. unfold call_get_bias. rewrite Hgb, Hb. simpl.
  destruct Tb as [Tb | (b' & Tb & Tty)]; [congruence|].
  assert (b' = b) as -> by congruence.
  unfold select_getter. rewrite Tty. reflexivity.
Qed.

Lemma strategies_agree f pimpl (h : heap) :
  resolved f pimpl -> uniformly_float32 pimpl -> 0 <= output_size pimpl ->
  exec_affine_generic pimpl h = exec_affine_float pimpl h.
Proof.
  intros Hres Hty Hsize.
  destruct (uniformly_float32_getters f pimpl Hres Hty) as (Hgi & Hgw & Hgo & Hso & Hgb).
  unfold exec_affine_generic, exec_affine_float, memset_zero.
  destruct (Z.ltb_spec (output_size pimpl) 0) as [|_]; [lia|].
  rewrite Hgi, Hgw, Hgo, Hso.
  destruct (bias pimpl) as [b|] eqn:Hb; [rewrite (Hgb b eq_refl)|]; reflexivity.
Qed.

Lemma exec_affine_generic_eq f pimpl (h : heap) :
  resolved f pimpl -> 0 <= output_size pimpl ->
  exec_affine pimpl h = exec_affine_generic pimpl h.
Proof.
  intros Hres Hsize. unfold exec_affine.
  destruct (select_strategy pimpl) eqn:Hs; [|reflexivity].
  symmetry. eapply strategies_agree; [exact Hres| |exact Hsize].
  apply select_strategy_direct, Hs.
Qed.

(** C2: for a bound kernel whose Variables are all Float32, the Generic
    strategy and the Direct strategy have the same outcome on every
    memory: the same output buffer, or the same fault. *)
Theorem exec_affine_strategies_agree (f : rt_function_t) (pimpl : affine_impl_t) (h : heap) :
  allocate_affine_config f = Ok pimpl ->
  uniformly_float32 pimpl ->
  0 <= output_size pimpl ->
  exec_affine_generic pimpl h = exec_affine_float pimpl h.
Proof.
  intros Hb%allocate_affine_config_resolved. apply strategies_agree with (f := f), Hb.
Qed.

(** C9, as the code has it: for a bound kernel with [base_loop_size = 0]
    the accumulation and bias stages write no element, and a run is its
    clearing stage over [output_size] elements, by either strategy.  The
    bind takes [output_size] from the shape of the output and does not
    compare it with the shape of the input: when the leading dimensions
    of the output multiply to [base_loop_size] as well, the output has 0
    elements and a run leaves the whole memory as it was. *)
Theorem exec_affine_no_rows (f : rt_function_t) (pimpl : affine_impl_t) (h : heap) :
  allocate_affine_config f = Ok pimpl ->
  base_loop_size pimpl = 0 ->
  exec_affine_float pimpl h
  = memset_zero (data (output pimpl)) (output_size pimpl) h /\
  exec_affine_generic pimpl h = generic_clear pimpl h /\
  (Int.wrap (shape_product (take (Z.to_nat (base_axis (config f))) (shape (output pimpl))))
     = base_loop_size pimpl ->
   output_size pimpl = 0 /\
   exec_affine pimpl h = Ok h /\
   exec_affine_float pimpl h = Ok h /\
   exec_affine_generic pimpl h = Ok h).
Proof.
  intros Hb Hbase.
  assert (exec_affine_float pimpl h
          = memset_zero (data (output pimpl)) (output_size pimpl) h) as Hf.
  { unfold exec_affine_float. rewrite Hbase.
    destruct (memset_zero _ _ h); reflexivity. }
  assert (exec_affine_generic pimpl h = generic_clear pimpl h) as Hg.
  { unfold exec_affine_generic, generic_clear. rewrite Hbase.
    destruct (for_loop 0 (output_size pimpl) _ h); reflexivity. }
  split; [exact Hf|]. split; [exact Hg|]. intros Hlead.
  pose proof (allocate_affine_config_rows_cover f pimpl Hb Hlead) as Hsize.
  rewrite Hbase in Hsize. change (Int.mul 0 _) with 0 in Hsize.
  rewrite Hf, Hg. unfold exec_affine. rewrite Hf, Hg.
  unfold generic_clear, memset_zero. rewrite Hsize.
  repeat split. destruct (select_strategy pimpl); reflexivity.
Qed.

End Strategies.

(** ** The run, element by element *)

Section HeapCells.

Context `{Conversions}.

Lemma imap_imap {A : Type} (g1 g2 : nat -> A -> A) (l : list A) :
  imap g2 (imap g1 l) = imap (fun p c => g2 p (g1 p c)) l.
Proof.
  apply list_eq. intros i. rewrite !list_lookup_imap.
  destruct (l !! i); reflexivity.
Qed.

Lemma imap_same {A : Type} (l : list A) : imap (fun _ c => c) l = l.
Proof.
  apply list_eq. intros i. rewrite list_lookup_imap. destruct (l !! i); reflexivity.
Qed.

Lemma insert_as_hit {A : Type} pos (g : A -> A) (b : list A) c :
  b !! Z.to_nat pos = Some c -> <[Z.to_nat pos := g c]> b = imap (hit pos g) b.
Proof.
  intros Hc. apply list_eq. intros i. rewrite list_lookup_imap. unfold hit.
  destruct (Nat.eqb_spec i (Z.to_nat pos)) as [->|Hne].
  - rewrite list_lookup_insert_eq by (eapply lookup_lt_Some; eassumption).
    rewrite Hc. reflexivity.
  - rewrite list_lookup_insert_ne by congruence. destruct (b !! i); reflexivity.
Qed.

Lemma load_insert_eq out pos (b : list F32.t) (h : heap) c :
  0 <= pos -> b !! Z.to_nat pos = Some c -> load out pos (<[out := b]> h) = Ok c.
Proof.
  intros Hpos Hc. unfold load. destruct (Z.ltb_spec pos 0) as [|_]; [lia|].
  rewrite lookup_insert_eq, Hc. reflexivity.
Qed.

Lemma load_insert_ne p out pos (b : list F32.t) (h : heap) :
  p <> out -> load p pos (<[out := b]> h) = load p pos h.
Proof. intros Hne. unfold load. rewrite lookup_insert_ne by congruence. reflexivity. Qed.

Lemma store_insert out pos x (b : list F32.t) (h : heap) :
  0 <= pos -> (Z.to_nat pos < length b)%nat ->
  store out pos x (<[out := b]> h) = Ok (<[out := <[Z.to_nat pos := x]> b]> h).
Proof.
  intros Hpos Hlt. unfold store. destruct (Z.ltb_spec pos 0) as [|_]; [lia|].
  rewrite lookup_insert_eq.
  destruct (Nat.ltb_spec (Z.to_nat pos) (length b)) as [_|]; [|lia].
  rewrite insert_insert_eq. reflexivity.
Qed.

Lemma covers_load (h : heap) p n pos :
  covers h p n = true -> 0 <= pos < n -> exists c, load p pos h = Ok c.
Proof.
  unfold covers, load. intros Hc Hpos.
  destruct (Z.ltb_spec pos 0) as [|_]; [lia|].
  destruct (h !! p) as [b|]; [|discriminate].
  apply Z.leb_le in Hc.
  destruct (lookup_lt_is_Some_2 b (Z.to_nat pos)) as [c Hb]; [lia|].
  rewrite Hb. eauto.
Qed.

(** A read of a buffer other than [out], through its accessor. *)
Lemma getter_element (v : rt_variable_t) out (b : list F32.t) (h : heap) n pos :
  covers h (data v) n = true -> data v <> out -> 0 <= pos < n ->
  select_getter v v pos (<[out := b]> h) = Ok (element h v pos).
Proof.
  intros Hc Hne Hpos. rewrite select_getter_load, load_insert_ne by exact Hne.
  unfold element. destruct (covers_load h _ _ _ Hc Hpos) as [c ->]. reflexivity.
Qed.

Lemma getter_output (v : rt_variable_t) (b : list F32.t) (h : heap) pos c :
  0 <= pos -> b !! Z.to_nat pos = Some c ->
  select_getter v v pos (<[data v := b]> h) = Ok (decode (type v) c).
Proof.
  intros Hpos Hc. rewrite select_getter_load, (load_insert_eq _ _ _ _ c) by assumption.
  reflexivity.
Qed.

Lemma setter_output (v : rt_variable_t) (b : list F32.t) (h : heap) pos x :
  0 <= pos -> (Z.to_nat pos < length b)%nat ->
  select_setter v v pos x (<[data v := b]> h)
  = Ok (<[data v := <[Z.to_nat pos := encode (type v) x]> b]> h).
Proof. intros Hpos Hlt. rewrite select_setter_store. apply store_insert; assumption. Qed.

(** A loop whose iterations each act element by element on the buffer at
    [out] acts element by element itself. *)
Lemma for_from_imap out (h : heap) (n : nat) (body : Z -> heap -> result heap)
    (G : Z -> nat -> F32.t -> F32.t) count i (b : list F32.t) :
  (forall j b', i <= j < i + Z.of_nat count -> length b' = n ->
     body j (<[out := b']> h) = Ok (<[out := imap (G j) b']> h)) ->
  length b = n ->
  for_from count i body (<[out := b]> h)
  = Ok (<[out := imap (fun p c => fold_from count i (fun j => G j p) c) b]> h).
Proof.
  revert i b. induction count as [|count IH]; intros i b Hbody Hlen; simpl.
  - rewrite imap_same. reflexivity.
  - rewrite Hbody by (first [lia | exact Hlen]). simpl.
    rewrite IH.
    + rewrite imap_imap. reflexivity.
    + intros j b' Hj Hb'. apply Hbody; [lia|exact Hb'].
    + rewrite length_imap. exact Hlen.
Qed.

Lemma for_loop_imap out (h : heap) (body : Z -> heap -> result heap)
    (G : Z -> nat -> F32.t -> F32.t) lo hi (b : list F32.t) :
  (forall j b', lo <= j < hi -> length b' = length b ->
     body j (<[out := b']> h) = Ok (<[out := imap (G j) b']> h)) ->
  for_loop lo hi body (<[out := b]> h)
  = Ok (<[out := imap (fun p c => fold_loop lo hi (fun j => G j p) c) b]> h).
Proof.
  intros Hbody. unfold for_loop, fold_loop.
  apply for_from_imap with (n := length b); [|reflexivity].
  intros j b' Hj Hb'. apply Hbody; [lia|exact Hb'].
Qed.

End HeapCells.

Lemma result_bind_ok {A B : Type} (a : A) (k : A -> result B) :
  (x ← Ok a; k x) = k a.
Proof. reflexivity. Qed.

Lemma index_small a n b m :
  0 <= a < n -> 0 <= b < m -> n * m < Int.half_modulus ->
  Int.add (Int.mul a m) b = a * m + b /\ 0 <= a * m + b < n * m.
Proof.
  intros Ha Hb Hfit. pose proof IntFacts.half_modulus_pos as Hpos.
  assert (0 <= a * m + b < n * m) as Hr by nia.
  split; [|exact Hr].
  rewrite IntFacts.mul_small by (unfold Int.in_range; nia).
  apply IntFacts.add_small. unfold Int.in_range. lia.
Qed.

Lemma fold_from_ext {A : Type} count i (step1 step2 : Z -> A -> A) a :
  (forall j x, i <= j < i + Z.of_nat count -> step1 j x = step2 j x) ->
  fold_from count i step1 a = fold_from count i step2 a.
Proof.
  revert i a. induction count as [|count IH]; intros i a Hs; simpl; [reflexivity|].
  rewrite Hs by lia. apply IH. intros j x Hj. apply Hs. lia.
Qed.

Lemma fold_from_id {A : Type} count i (step : Z -> A -> A) a :
  (forall j x, i <= j < i + Z.of_nat count -> step j x = x) ->
  fold_from count i step a = a.
Proof.
  revert i a. induction count as [|count IH]; intros i a Hs; simpl; [reflexivity|].
  rewrite Hs by lia. apply IH. intros j x Hj. apply Hs. lia.
Qed.

Lemma fold_from_one {A : Type} count i j0 (step : Z -> A -> A) a :
  i <= j0 < i + Z.of_nat count ->
  (forall j x, i <= j < i + Z.of_nat count -> j <> j0 -> step j x = x) ->
  fold_from count i step a = step j0 a.
Proof.
  revert i a. induction count as [|count IH]; intros i a Hj0 Hs; simpl; [lia|].
  destruct (Z.eq_dec i j0) as [->|Hne].
  - apply fold_from_id. intros j x Hj. apply Hs; lia.
  - rewrite Hs by lia. apply IH; [lia|]. intros j x Hj Hjne. apply Hs; lia.
Qed.

Lemma fold_loop_ext {A : Type} lo hi (step1 step2 : Z -> A -> A) a :
  (forall j x, lo <= j < hi -> step1 j x = step2 j x) ->
  fold_loop lo hi step1 a = fold_loop lo hi step2 a.
Proof. intros Hs. apply fold_from_ext. intros j x Hj. apply Hs. lia. Qed.

Lemma fold_loop_id {A : Type} lo hi (step : Z -> A -> A) a :
  (forall j x, lo <= j < hi -> step j x = x) -> fold_loop lo hi step a = a.
Proof. intros Hs. apply fold_from_id. intros j x Hj. apply Hs. lia. Qed.

Lemma fold_loop_one {A : Type} lo hi j0 (step : Z -> A -> A) a :
  lo <= j0 < hi ->
  (forall j x, lo <= j < hi -> j <> j0 -> step j x = x) ->
  fold_loop lo hi step a = step j0 a.
Proof.
  intros Hj0 Hs. apply fold_from_one; [lia|]. intros j x Hj. apply Hs. lia.
Qed.

Lemma fold_from_seqZ {A : Type} count i (step : Z -> A -> A) a :
  fold_from count i step a = foldl (fun acc j => step j acc) a (seqZ i (Z.of_nat count)).
Proof.
  revert i a. induction count as [|count IH]; intros i a; [reflexivity|].
  rewrite Nat2Z.inj_succ, seqZ_cons by lia. simpl. rewrite IH.
  replace (Z.pred (Z.succ (Z.of_nat count))) with (Z.of_nat count) by lia.
  replace (Z.succ i) with (i + 1) by lia. reflexivity.
Qed.

Lemma hit_same {A : Type} pos (g : A -> A) c : 0 <= pos -> hit pos g (Z.to_nat pos) c = g c.
Proof. intros _. unfold hit. rewrite Nat.eqb_refl. reflexivity. Qed.

Lemma hit_other {A : Type} pos (g : A -> A) p c : p <> Z.to_nat pos -> hit pos g p c = c.
Proof. intros Hne. unfold hit. destruct (Nat.eqb_spec p (Z.to_nat pos)); [contradiction|reflexivity]. Qed.

Lemma row_index_unique k i k0 i0 m :
  0 <= i < m -> 0 <= i0 < m -> 0 <= k -> 0 <= k0 ->
  k * m + i = k0 * m + i0 -> k = k0 /\ i = i0.
Proof.
  intros Hi Hi0 Hk Hk0 Heq.
  assert (k = k0) as -> by nia. split; [reflexivity|lia].
Qed.

Section Run.

Context `{Conversions}.
Variable f : rt_function_t.
Variable pimpl : affine_impl_t.
Variable h : heap.
Hypothesis Hres : resolved f pimpl.
Hypothesis Hready : exec_ready pimpl h = true.

Lemma exec_ready_facts :
  (0 <= base_loop_size pimpl /\ 0 <= input_loop_size pimpl /\ 0 <= output_loop_size pimpl) /\
  output_size pimpl = base_loop_size pimpl * output_loop_size pimpl /\
  (base_loop_size pimpl * input_loop_size pimpl < Int.half_modulus /\
   input_loop_size pimpl * output_loop_size pimpl < Int.half_modulus /\
   base_loop_size pimpl * output_loop_size pimpl < Int.half_modulus) /\
  covers h (data (input pimpl)) (base_loop_size pimpl * input_loop_size pimpl) = true /\
  covers h (data (weight pimpl)) (input_loop_size pimpl * output_loop_size pimpl) = true /\
  covers h (data (output pimpl)) (output_size pimpl) = true /\
  data (input pimpl) <> data (output pimpl) /\
  data (weight pimpl) <> data (output pimpl) /\
  (forall b, bias pimpl = Some b ->
     covers h (data b) (output_loop_size pimpl) = true /\ data b <> data (output pimpl)).
Proof.
  unfold exec_ready in Hready.
  repeat match type of Hready with
         | _ && _ = true => let Hr := fresh "Hr" in apply andb_prop in Hready as [Hready Hr]
         end.
  repeat match goal with
         | Hx : (_ <=? _) = true |- _ => apply Z.leb_le in Hx
         | Hx : (_ <? _) = true |- _ => apply Z.ltb_lt in Hx
         | Hx : (_ =? _) = true |- _ => apply Z.eqb_eq in Hx
         | Hx : negb (_ =? _) = true |- _ => apply negb_true_iff, Z.eqb_neq in Hx
         end.
  repeat split; try assumption.
  - destruct (bias pimpl) as [b'|]; [|discriminate].
    injection H0 as <-. apply andb_prop in Hr as [Hc _]. exact Hc.
  - destruct (bias pimpl) as [b'|]; [|discriminate].
    injection H0 as <-. apply andb_prop in Hr as [_ Hn].
    apply negb_true_iff, Z.eqb_neq in Hn. exact Hn.
Qed.

Let out : Z := data (output pimpl).

Lemma clear_stage (b : list F32.t) :
  output_size pimpl <= Z.of_nat (length b) ->
  for_loop 0 (output_size pimpl)
    (fun i h => set_output pimpl (output pimpl) i F32.zero h) (<[out := b]> h)
  = Ok (<[out := imap (cell_clear pimpl) b]> h).
Proof.
  intros Hlen.
  destruct Hres as (_ & _ & _ & _ & _ & _ & _ & _ & Hset & _).
  rewrite (for_loop_imap out h _
             (fun i => hit i (fun _ => encode (type (output pimpl)) F32.zero))).
  - reflexivity.
  - intros j b' Hj Hb'. rewrite Hset. unfold out.
    rewrite setter_output by lia.
    destruct (lookup_lt_is_Some_2 b' (Z.to_nat j)) as [c Hc]; [lia|].
    rewrite <- (insert_as_hit j (fun _ => encode (type (output pimpl)) F32.zero) b' c Hc).
    reflexivity.
Qed.

Lemma mac_stage (k j : Z) (b : list F32.t) :
  0 <= k < base_loop_size pimpl -> 0 <= j < input_loop_size pimpl ->
  output_size pimpl <= Z.of_nat (length b) ->
  for_loop 0 (output_loop_size pimpl) (fun i t =>
    let opos := Int.add (Int.mul k (output_loop_size pimpl)) i in
    let wpos := Int.add (Int.mul j (output_loop_size pimpl)) i in
    w ← get_weight pimpl (weight pimpl) wpos t;
    value ← get_output pimpl (output pimpl) opos t;
    set_output pimpl (output pimpl) opos
      (F32.add value
         (F32.mul (element h (input pimpl)
                     (Int.add (Int.mul k (input_loop_size pimpl)) j)) w)) t)
    (<[out := b]> h)
  = Ok (<[out := imap (cell_mac pimpl h k j) b]> h).
Proof.
  intros Hk Hj Hlen.
  destruct exec_ready_facts as ((Hb0 & Hi0 & Ho0) & Hsize & (Fi & Fw & Fo) & Ci & Cw & Co & Ni & Nw & Hbias).
  destruct Hres as (_ & _ & _ & _ & _ & Hgw & _ & Hgo & Hset & _).
  rewrite (for_loop_imap out h _
             (fun i =>
                hit (Int.add (Int.mul k (output_loop_size pimpl)) i)
                  (fun value =>
                     encode (type (output pimpl))
                       (F32.add (decode (type (output pimpl)) value)
                          (F32.mul
                             (element h (input pimpl)
                                (Int.add (Int.mul k (input_loop_size pimpl)) j))
                             (element h (weight pimpl)
                                (Int.add (Int.mul j (output_loop_size pimpl)) i))))))).
  - reflexivity.
  - intros i b' Hi Hb'. cbv zeta.
    destruct (index_small k _ i _ Hk Hi Fo) as [Eo Ro].
    destruct (index_small j _ i _ Hj Hi Fw) as [Ew Rw].
    rewrite Hgw, Hgo, Hset. unfold out.
    rewrite (getter_element _ _ _ _ _ _ Cw Nw) by (rewrite Ew; exact Rw).
    rewrite result_bind_ok.
    destruct (lookup_lt_is_Some_2 b'
                (Z.to_nat (Int.add (Int.mul k (output_loop_size pimpl)) i))) as [c Hc];
      [rewrite Eo; lia|].
    rewrite (getter_output _ _ _ _ c) by (first [rewrite Eo; lia | exact Hc]).
    rewrite result_bind_ok.
    rewrite setter_output by (rewrite Eo; lia).
    rewrite <- (insert_as_hit _ _ b' c Hc). reflexivity.
Qed.

Lemma weight_stage (k : Z) (b : list F32.t) :
  0 <= k < base_loop_size pimpl ->
  output_size pimpl <= Z.of_nat (length b) ->
  for_loop 0 (input_loop_size pimpl) (fun j t =>
    let ipos := Int.add (Int.mul k (input_loop_size pimpl)) j in
    u ← get_input pimpl (input pimpl) ipos t;
    for_loop 0 (output_loop_size pimpl) (fun i t =>
      let opos := Int.add (Int.mul k (output_loop_size pimpl)) i in
      let wpos := Int.add (Int.mul j (output_loop_size pimpl)) i in
      w ← get_weight pimpl (weight pimpl) wpos t;
      value ← get_output pimpl (output pimpl) opos t;
      set_output pimpl (output pimpl) opos (F32.add value (F32.mul u w)) t) t)
    (<[out := b]> h)
  = Ok (<[out := imap (cell_weight pimpl h k) b]> h).
Proof.
  intros Hk Hlen.
  destruct exec_ready_facts as (_ & _ & (Fi & _ & _) & Ci & _ & _ & Ni & _).
  rewrite (for_loop_imap out h _ (cell_mac pimpl h k)).
  - reflexivity.
  - intros j b' Hj Hb'. cbv zeta.
    destruct (index_small k _ j _ Hk Hj Fi) as [Ei Ri].
    destruct Hres as (_ & _ & _ & _ & Hgi & _).
    rewrite Hgi.
    rewrite (getter_element _ _ _ _ _ _ Ci Ni) by (rewrite Ei; exact Ri).
    rewrite result_bind_ok.
    apply mac_stage; [exact Hk|exact Hj|lia].
Qed.

Lemma bias_stage (k : Z) (b : list F32.t) :
  0 <= k < base_loop_size pimpl ->
  output_size pimpl <= Z.of_nat (length b) ->
  match bias pimpl with
  | Some vb =>
      for_loop 0 (output_loop_size pimpl) (fun i t =>
        let opos := Int.add (Int.mul k (output_loop_size pimpl)) i in
        let bpos := i in
        o ← get_output pimpl (output pimpl) opos t;
        c ← call_get_bias pimpl vb bpos t;
        set_output pimpl (output pimpl) opos (F32.add o c) t) (<[out := b]> h)
  | None => Ok (<[out := b]> h)
  end
  = Ok (<[out := imap (cell_bias pimpl h k) b]> h).
Proof.
  intros Hk Hlen.
  destruct exec_ready_facts as (_ & Hsize & (_ & _ & Fo) & _ & _ & _ & _ & _ & Hbias).
  destruct Hres as (_ & _ & _ & _ & _ & _ & Hgb & Hgo & Hset & _).
  unfold cell_bias, call_get_bias. rewrite Hgb.
  destruct (bias pimpl) as [vb|]; simpl.
  - destruct (Hbias vb eq_refl) as [Cb Nb].
    rewrite (for_loop_imap out h _
               (fun i =>
                  hit (Int.add (Int.mul k (output_loop_size pimpl)) i)
                    (fun o =>
                       encode (type (output pimpl))
                         (F32.add (decode (type (output pimpl)) o) (element h vb i))))).
    + reflexivity.
    + intros i b' Hi Hb'. cbv zeta.
      destruct (index_small k _ i _ Hk Hi Fo) as [Eo Ro].
      rewrite Hgo, Hset. unfold out.
      destruct (lookup_lt_is_Some_2 b'
                  (Z.to_nat (Int.add (Int.mul k (output_loop_size pimpl)) i))) as [c Hc];
        [rewrite Eo; lia|].
      rewrite (getter_output _ _ _ _ c) by (first [rewrite Eo; lia | exact Hc]).
      rewrite result_bind_ok.
      rewrite (getter_element _ _ _ _ _ _ Cb Nb) by exact Hi.
      rewrite result_bind_ok.
      rewrite setter_output by (rewrite Eo; lia).
      rewrite <- (insert_as_hit _ _ b' c Hc). reflexivity.
  - rewrite imap_same. reflexivity.
Qed.

(** The Generic strategy, as the map of [exec_cell] over the output
    buffer, whatever the buffer held before. *)
Lemma exec_affine_generic_cells (b : list F32.t) :
  output_size pimpl <= Z.of_nat (length b) ->
  exec_affine_generic pimpl (<[out := b]> h)
  = Ok (<[out := imap (exec_cell pimpl h) b]> h).
Proof.
  intros Hlen. unfold exec_affine_generic.
  rewrite clear_stage by exact Hlen. rewrite result_bind_ok.
  rewrite (for_loop_imap out h _ (cell_row pimpl h)).
  - rewrite imap_imap. reflexivity.
  - intros k b' Hk Hb'. cbv zeta.
    rewrite length_imap in Hb'.
    rewrite weight_stage by (first [exact Hk | lia]).
    rewrite result_bind_ok.
    pose proof (bias_stage k (imap (cell_weight pimpl h k) b') Hk) as Hbias.
    rewrite length_imap in Hbias. specialize (Hbias ltac:(lia)).
    rewrite imap_imap in Hbias. exact Hbias.
Qed.

(** The output buffer of the memory. *)
Lemma exec_ready_output :
  exists b, h !! out = Some b /\ output_size pimpl <= Z.of_nat (length b).
Proof.
  destruct exec_ready_facts as (_ & _ & _ & _ & _ & Co & _).
  unfold covers in Co. fold out in Co.
  destruct (h !! out) as [b|]; [|discriminate].
  exists b. split; [reflexivity|]. apply Z.leb_le, Co.
Qed.

Lemma exec_affine_cells (b : list F32.t) :
  output_size pimpl <= Z.of_nat (length b) ->
  exec_affine pimpl (<[out := b]> h)
  = Ok (<[out := imap (exec_cell pimpl h) b]> h).
Proof.
  intros Hlen. rewrite (exec_affine_generic_eq f) by
    (first [exact Hres | destruct exec_ready_facts as ((? & ? & ?) & -> & _); nia]).
  apply exec_affine_generic_cells, Hlen.
Qed.

Lemma cell_mac_in_row (k0 i0 j : Z) (c : F32.t) :
  0 <= k0 < base_loop_size pimpl -> 0 <= i0 < output_loop_size pimpl ->
  0 <= j < input_loop_size pimpl ->
  cell_mac pimpl h k0 j (Z.to_nat (k0 * output_loop_size pimpl + i0)) c
  = encode (type (output pimpl))
      (F32.add (decode (type (output pimpl)) c)
         (F32.mul (element h (input pimpl) (k0 * input_loop_size pimpl + j))
                  (element h (weight pimpl) (j * output_loop_size pimpl + i0)))).
Proof.
  intros Hk Hi Hj.
  destruct exec_ready_facts as (_ & _ & (Fi & Fw & Fo) & _).
  unfold cell_mac. cbv zeta.
  pose proof (proj2 (index_small k0 _ i0 _ Hk Hi Fo)) as Rp.
  rewrite (fold_loop_one _ _ i0) by
    (first [ exact Hi
           | intros i x Hi' Hne; apply hit_other;
             destruct (index_small k0 _ i _ Hk Hi' Fo) as [-> ?]; lia ]).
  destruct (index_small k0 _ i0 _ Hk Hi Fo) as [-> ?].
  destruct (index_small k0 _ j _ Hk Hj Fi) as [-> ?].
  destruct (index_small j _ i0 _ Hj Hi Fw) as [-> ?].
  rewrite hit_same by lia. reflexivity.
Qed.

Lemma cell_row_other (k k0 i0 : Z) (c : F32.t) :
  0 <= k < base_loop_size pimpl -> 0 <= k0 < base_loop_size pimpl ->
  0 <= i0 < output_loop_size pimpl -> k <> k0 ->
  cell_row pimpl h k (Z.to_nat (k0 * output_loop_size pimpl + i0)) c = c.
Proof.
  intros Hk Hk0 Hi0 Hne.
  destruct exec_ready_facts as (_ & _ & (Fi & Fw & Fo) & _).
  assert (forall i, 0 <= i < output_loop_size pimpl ->
            Z.to_nat (k0 * output_loop_size pimpl + i0)
            <> Z.to_nat (Int.add (Int.mul k (output_loop_size pimpl)) i)) as Hmiss.
  { intros i Hi. destruct (index_small k _ i _ Hk Hi Fo) as [-> ?].
    intros Heq. apply Z2Nat.inj in Heq; [|nia|lia].
    symmetry in Heq. apply row_index_unique in Heq; lia. }
  unfold cell_row, cell_bias, cell_weight, cell_mac. cbv zeta.
  rewrite (fold_loop_id 0 (input_loop_size pimpl)).
  - destruct (bias pimpl); [|reflexivity].
    apply fold_loop_id. intros i x Hi. apply hit_other, Hmiss, Hi.
  - intros j x Hj. apply fold_loop_id. intros i y Hi. apply hit_other, Hmiss, Hi.
Qed.

(** The element [i0] of row [k0] after a run. *)
Lemma exec_cell_in_row (k0 i0 : Z) (c : F32.t) :
  0 <= k0 < base_loop_size pimpl -> 0 <= i0 < output_loop_size pimpl ->
  exec_cell pimpl h (Z.to_nat (k0 * output_loop_size pimpl + i0)) c
  = row_cell pimpl h k0 i0.
Proof.
  intros Hk Hi.
  destruct exec_ready_facts as (_ & Hsize & (Fi & Fw & Fo) & _).
  unfold exec_cell.
  rewrite (fold_loop_one _ _ k0) by
    (first [ exact Hk | intros k x Hk' Hne; apply cell_row_other; assumption ]).
  assert (cell_clear pimpl (Z.to_nat (k0 * output_loop_size pimpl + i0)) c
          = encode (type (output pimpl)) F32.zero) as ->.
  { unfold cell_clear.
    rewrite (fold_loop_one _ _ (k0 * output_loop_size pimpl + i0)).
    - rewrite hit_same by nia. reflexivity.
    - rewrite Hsize. nia.
    - intros i x Hi' Hne. apply hit_other. intros Heq.
      apply Z2Nat.inj in Heq; [congruence|nia|lia]. }
  unfold cell_row, row_cell. cbv zeta.
  assert (cell_weight pimpl h k0 (Z.to_nat (k0 * output_loop_size pimpl + i0))
            (encode (type (output pimpl)) F32.zero)
          = fold_loop 0 (input_loop_size pimpl) (fun j c =>
              encode (type (output pimpl))
                (F32.add (decode (type (output pimpl)) c)
                   (F32.mul (element h (input pimpl) (k0 * input_loop_size pimpl + j))
                      (element h (weight pimpl) (j * output_loop_size pimpl + i0)))))
              (encode (type (output pimpl)) F32.zero)) as ->.
  { unfold cell_weight. apply fold_loop_ext. intros j x Hj.
    apply cell_mac_in_row; assumption. }
  unfold cell_bias. cbv zeta. destruct (bias pimpl) as [vb|]; [|reflexivity].
  pose proof (proj2 (index_small k0 _ i0 _ Hk Hi Fo)) as Rp.
  rewrite (fold_loop_one _ _ i0) by
    (first [ exact Hi
           | intros i x Hi' Hne; apply hit_other;
             destruct (index_small k0 _ i _ Hk Hi' Fo) as [-> ?]; lia ]).
  destruct (index_small k0 _ i0 _ Hk Hi Fo) as [-> ?].
  rewrite hit_same by lia. reflexivity.
Qed.

(** An element past the rows is as it was. *)
Lemma exec_cell_outside (p : nat) (c : F32.t) :
  output_size pimpl <= Z.of_nat p -> exec_cell pimpl h p c = c.
Proof.
  intros Hp.
  destruct exec_ready_facts as (_ & Hsize & (Fi & Fw & Fo) & _).
  assert (forall k i, 0 <= k < base_loop_size pimpl -> 0 <= i < output_loop_size pimpl ->
            p <> Z.to_nat (Int.add (Int.mul k (output_loop_size pimpl)) i)) as Hmiss.
  { intros k i Hk Hi. destruct (index_small k _ i _ Hk Hi Fo) as [-> ?]. lia. }
  unfold exec_cell.
  rewrite fold_loop_id.
  - unfold cell_clear. apply fold_loop_id. intros i x Hi. apply hit_other. lia.
  - intros k x Hk. unfold cell_row, cell_bias, cell_weight, cell_mac. cbv zeta.
    rewrite (fold_loop_id 0 (input_loop_size pimpl)).
    + destruct (bias pimpl); [|reflexivity].
      apply fold_loop_id. intros i y Hi. apply hit_other, Hmiss; assumption.
    + intros j y Hj. apply fold_loop_id. intros i z Hi. apply hit_other, Hmiss; assumption.
Qed.

(** Every element below [output_size] is the element of a row. *)
Lemma exec_cell_row_of (p : nat) :
  Z.of_nat p < output_size pimpl ->
  exists k i, 0 <= k < base_loop_size pimpl /\ 0 <= i < output_loop_size pimpl /\
              p = Z.to_nat (k * output_loop_size pimpl + i) /\
              forall c, exec_cell pimpl h p c = row_cell pimpl h k i.
Proof.
  intros Hp.
  destruct exec_ready_facts as ((Hb0 & Hi0 & Ho0) & Hsize & _).
  assert (0 < output_loop_size pimpl) as Hpos by nia.
  exists (Z.of_nat p / output_loop_size pimpl), (Z.of_nat p mod output_loop_size pimpl).
  pose proof (Z.div_mod (Z.of_nat p) (output_loop_size pimpl) ltac:(lia)) as Hdm.
  pose proof (Z.mod_pos_bound (Z.of_nat p) (output_loop_size pimpl) Hpos) as Hm.
  assert (0 <= Z.of_nat p / output_loop_size pimpl < base_loop_size pimpl) as Hk.
  { split; [apply Z.div_pos; lia|]. apply Z.div_lt_upper_bound; [exact Hpos|]. nia. }
  assert (p = Z.to_nat (Z.of_nat p / output_loop_size pimpl * output_loop_size pimpl
                        + Z.of_nat p mod output_loop_size pimpl)) as Hpeq by lia.
  repeat split; try lia.
  intros c. rewrite Hpeq at 1. apply exec_cell_in_row; [exact Hk|exact Hm].
Qed.

Lemma row_cell_float (k i : Z) :
  type (output pimpl) = NN_DATA_TYPE_FLOAT ->
  row_cell pimpl h k i = affine_value pimpl h k i.
Proof.
  intros Hty. unfold row_cell, affine_value, dot_row, fold_loop. cbv zeta.
  rewrite Hty. simpl. rewrite fold_from_seqZ.
  destruct exec_ready_facts as ((_ & Hi0 & _) & _).
  rewrite Z.sub_0_r, Z2Nat.id by exact Hi0. reflexivity.
Qed.

End Run.

(** ** Rounding never yields the negative zero from a bounded sum *)

Section Rounding.

Variables prec emax : Z.
Hypothesis prec_pos : 0 < prec.

Lemma shr_1_digits mrs q :
  shr_m mrs = Zpos q -> 1 < Zpos (digits2_pos q) ->
  exists q', shr_m (shr_1 mrs) = Zpos q' /\
             Zpos (digits2_pos q') = Zpos (digits2_pos q) - 1.
Proof.
  destruct mrs as [m r s]. cbn [shr_m]. intros -> Hd.
  destruct q as [q|q|]; cbn [digits2_pos] in *;
    [exists q | exists q | lia]; (split; [reflexivity|]);
    rewrite Pos2Z.inj_succ; lia.
Qed.

Lemma shr_iter_digits p : forall mrs q,
  shr_m mrs = Zpos q -> Zpos p < Zpos (digits2_pos q) ->
  exists q', shr_m (SpecFloat.iter_pos shr_1 p mrs) = Zpos q' /\
             Zpos (digits2_pos q') = Zpos (digits2_pos q) - Zpos p.
Proof.
  induction p as [p IH|p IH|]; intros mrs q Hm Hd; cbn [SpecFloat.iter_pos].
  - destruct (shr_1_digits mrs q Hm) as (q1 & Hm1 & Hd1); [lia|].
    destruct (IH _ q1 Hm1) as (q2 & Hm2 & Hd2); [lia|].
    destruct (IH _ q2 Hm2) as (q3 & Hm3 & Hd3); [lia|].
    exists q3. split; [exact Hm3|lia].
  - destruct (IH _ q Hm) as (q2 & Hm2 & Hd2); [lia|].
    destruct (IH _ q2 Hm2) as (q3 & Hm3 & Hd3); [lia|].
    exists q3. split; [exact Hm3|lia].
  - destruct (shr_1_digits mrs q Hm) as (q1 & Hm1 & Hd1); [lia|].
    exists q1. split; [exact Hm1|lia].
Qed.

Lemma shr_record_of_loc_m m l : shr_m (shr_record_of_loc m l) = m.
Proof. destruct l as [|[| |]]; reflexivity. Qed.

Lemma shr_fexp_exp m e l : emin prec emax <= snd (shr_fexp prec emax m e l).
Proof.
  unfold shr_fexp, shr, fexp.
  destruct (Z.max (Zdigits2 m + e - prec) (emin prec emax) - e) eqn:Hn; simpl; lia.
Qed.

Lemma shr_fexp_pos m e l :
  0 < m -> emin prec emax <= e -> 0 < shr_m (fst (shr_fexp prec emax m e l)).
Proof.
  intros Hm He. destruct m as [|q|q]; try lia.
  unfold shr_fexp, shr, fexp. simpl Zdigits2.
  destruct (Z.max (Zpos (digits2_pos q) + e - prec) (emin prec emax) - e) as [|p|p] eqn:Hn;
    simpl; rewrite ?shr_record_of_loc_m; try lia.
  destruct (shr_iter_digits p (shr_record_of_loc (Zpos q) l) q) as (q' & -> & _);
    [apply shr_record_of_loc_m | lia | lia].
Qed.

Lemma round_nearest_even_pos m l : 0 < m -> 0 < round_nearest_even m l.
Proof.
  intros Hm. unfold round_nearest_even.
  destruct l as [|[| |]]; try lia. destruct (Z.even m); lia.
Qed.

Lemma binary_round_aux_bounded s m e l : bounded_exp prec emax (binary_round_aux prec emax s m e l).
Proof.
  unfold binary_round_aux.
  destruct (shr_fexp prec emax m e l) as [mrs' e'].
  pose proof (shr_fexp_exp (round_nearest_even (shr_m mrs') (loc_of_shr_record mrs')) e' loc_Exact) as He.
  destruct (shr_fexp prec emax _ e' loc_Exact) as [mrs'' e'']. simpl in He.
  destruct (shr_m mrs''); simpl; try exact I.
  destruct (e'' <=? emax - prec); simpl; [exact He|exact I].
Qed.

Lemma binary_round_aux_nonzero s m e l s' :
  0 < m -> emin prec emax <= e -> binary_round_aux prec emax s m e l <> S754_zero s'.
Proof.
  intros Hm He. unfold binary_round_aux.
  pose proof (shr_fexp_pos m e l Hm He) as H1.
  pose proof (shr_fexp_exp m e l) as E1.
  destruct (shr_fexp prec emax m e l) as [mrs' e']. simpl in H1, E1.
  pose proof (shr_fexp_pos _ e' loc_Exact
                (round_nearest_even_pos _ (loc_of_shr_record mrs') H1) E1) as H2.
  destruct (shr_fexp prec emax _ e' loc_Exact) as [mrs'' e'']. simpl in H2.
  destruct (shr_m mrs''); try lia.
  destruct (e'' <=? emax - prec); discriminate.
Qed.

Lemma shl_align_exp m e : emin prec emax <= e ->
  emin prec emax <= snd (shl_align m e (fexp prec emax (Zpos (digits2_pos m) + e))).
Proof.
  intros He. unfold shl_align, fexp.
  destruct (Z.max (Zpos (digits2_pos m) + e - prec) (emin prec emax) - e) eqn:Hn; simpl; lia.
Qed.

Lemma binary_round_settled s m e :
  emin prec emax <= e -> settled prec emax (binary_round prec emax s m e).
Proof.
  intros He. unfold binary_round.
  pose proof (shl_align_exp m e He) as Hz.
  destruct (shl_align m e _) as [mz ez]. simpl in Hz.
  split; [apply binary_round_aux_nonzero; [lia|exact Hz] | apply binary_round_aux_bounded].
Qed.

Lemma SFmul_bounded x y : bounded_exp prec emax (SFmul prec emax x y).
Proof.
  destruct x as [sx|sx| |sx mx ex], y as [sy|sy| |sy my ey]; simpl; try exact I.
  apply binary_round_aux_bounded.
Qed.

Lemma SFadd_settled x y :
  settled prec emax x -> bounded_exp prec emax y -> settled prec emax (SFadd prec emax x y).
Proof.
  intros [Hx Bx] By.
  destruct x as [sx|sx| |sx mx ex], y as [sy|sy| |sy my ey]; simpl;
    try (split; [discriminate|exact I]);
    try (destruct sx, sy; split; first [discriminate | congruence | exact I]).
  simpl in Bx, By. unfold binary_normalize.
  destruct (cond_Zopp sx _ + cond_Zopp sy _) as [|m|m].
  - split; [discriminate|exact I].
  - apply binary_round_settled. lia.
  - apply binary_round_settled. lia.
Qed.

Lemma SFadd_zero_r x s : x <> S754_zero true -> SFadd prec emax x (S754_zero s) = x.
Proof.
  intros Hx. destruct x as [[|]| | |]; try reflexivity; [congruence|].
  destruct s; reflexivity.
Qed.

End Rounding.

Module F32Facts.

Lemma zero_settled : f32_settled F32.zero.
Proof. split; [discriminate|exact I]. Qed.

Lemma mac_settled (c u w : F32.t) : f32_settled c -> f32_settled (F32.add c (F32.mul u w)).
Proof.
  intros Hc. apply SFadd_settled; [reflexivity|exact Hc|].
  apply SFmul_bounded.
Qed.

Lemma add_zero_r (x z : F32.t) : f32_settled x -> F32.is_zero z = true -> F32.add x z = x.
Proof.
  intros [Hx _] Hz. destruct z as [s| | |]; try discriminate.
  apply SFadd_zero_r, Hx.
Qed.

End F32Facts.

Lemma fold_from_invariant {A : Type} (P : A -> Prop) count i (step : Z -> A -> A) a :
  (forall j x, P x -> P (step j x)) -> P a -> P (fold_from count i step a).
Proof.
  intros Hs. revert i a. induction count as [|count IH]; intros i a Ha; simpl; [exact Ha|].
  apply IH, Hs, Ha.
Qed.

(** ** What a run computes *)

Section Computes.

Context `{Conversions}.

Lemma exec_affine_rows f pimpl (h : heap) :
  resolved f pimpl -> exec_ready pimpl h = true ->
  exists b,
    h !! data (output pimpl) = Some b /\
    output_size pimpl <= Z.of_nat (length b) /\
    exec_affine pimpl h = Ok (<[data (output pimpl) := imap (exec_cell pimpl h) b]> h) /\
    forall k i, 0 <= k < base_loop_size pimpl -> 0 <= i < output_loop_size pimpl ->
      load (data (output pimpl)) (k * output_loop_size pimpl + i)
           (<[data (output pimpl) := imap (exec_cell pimpl h) b]> h)
      = Ok (row_cell pimpl h k i).
Proof.
  intros Hres Hready.
  destruct (exec_ready_output pimpl h Hready) as (b & Hb & Hlen).
  exists b. split; [exact Hb|]. split; [exact Hlen|]. split.
  - rewrite <- (insert_id h _ _ Hb) at 1.
    apply (exec_affine_cells f); assumption.
  - intros k i Hk Hi.
    destruct (exec_ready_facts pimpl h Hready) as (_ & Hsize & (_ & _ & Fo) & _).
    destruct (index_small k _ i _ Hk Hi Fo) as [_ Ro].
    destruct (lookup_lt_is_Some_2 b (Z.to_nat (k * output_loop_size pimpl + i)))
      as [c Hc]; [lia|].
    rewrite (load_insert_eq _ _ _ _ (exec_cell pimpl h
               (Z.to_nat (k * output_loop_size pimpl + i)) c)).
    + rewrite (exec_cell_in_row pimpl h Hready) by assumption. reflexivity.
    + lia.
    + rewrite list_lookup_imap, Hc. reflexivity.
Qed.

(** C10: a run does not depend on what the output buffer held.  A second
    run leaves the memory of the first, and a run from any other prior
    contents of the output buffer yields the same [output_size] elements
    and the same other buffers. *)
Theorem exec_affine_ignores_old_output (f : rt_function_t) (pimpl : affine_impl_t) (h : heap) :
  allocate_affine_config f = Ok pimpl ->
  exec_ready pimpl h = true ->
  exists b h1,
    h !! data (output pimpl) = Some b /\
    exec_affine pimpl h = Ok h1 /\
    exec_affine pimpl h1 = Ok h1 /\
    forall prior : list F32.t, length prior = length b ->
      exists h2,
        exec_affine pimpl (<[data (output pimpl) := prior]> h) = Ok h2 /\
        (forall pos, 0 <= pos < output_size pimpl ->
           load (data (output pimpl)) pos h2 = load (data (output pimpl)) pos h1) /\
        (forall q, q <> data (output pimpl) -> h2 !! q = h1 !! q).
Proof.
  intros Hres%allocate_affine_config_resolved Hready.
  destruct (exec_affine_rows f pimpl h Hres Hready) as (b & Hb & Hlen & Hrun & _).
  exists b, (<[data (output pimpl) := imap (exec_cell pimpl h) b]> h).
  split; [exact Hb|]. split; [exact Hrun|]. split.
  - rewrite (exec_affine_cells f) by (first [assumption | rewrite length_imap; exact Hlen]).
    rewrite imap_imap. do 2 f_equal. apply imap_ext. intros p c Hc.
    destruct (Z.lt_ge_cases (Z.of_nat p) (output_size pimpl)) as [Hin|Hout].
    + destruct (exec_cell_row_of pimpl h Hready p Hin) as (k & i & _ & _ & _ & Hrow).
      rewrite !Hrow. reflexivity.
    + rewrite !(exec_cell_outside pimpl h Hready) by exact Hout. reflexivity.
  - intros prior Hprior.
    exists (<[data (output pimpl) := imap (exec_cell pimpl h) prior]> h).
    split; [apply (exec_affine_cells f); first [assumption | lia]|]. split.
    + intros pos Hpos.
      destruct (lookup_lt_is_Some_2 b (Z.to_nat pos)) as [c Hc]; [lia|].
      destruct (lookup_lt_is_Some_2 prior (Z.to_nat pos)) as [c' Hc']; [lia|].
      rewrite (load_insert_eq _ _ _ _ (exec_cell pimpl h (Z.to_nat pos) c'))
        by (first [lia | rewrite list_lookup_imap, Hc'; reflexivity]).
      rewrite (load_insert_eq _ _ _ _ (exec_cell pimpl h (Z.to_nat pos) c))
        by (first [lia | rewrite list_lookup_imap, Hc; reflexivity]).
      destruct (exec_cell_row_of pimpl h Hready (Z.to_nat pos))
        as (k & i & _ & _ & _ & Hrow); [lia|].
      rewrite !Hrow. reflexivity.
    + intros q Hq. rewrite !lookup_insert_ne by congruence. reflexivity.
Qed.

End Computes.

(** C1: for a bound kernel with a Float32 output, on a memory where the
    run is defined, [exec_affine] returns, and element [i] of row [k] of
    the output is the sum over [j] of [input[k,j] * weight[j,i]], plus
    [bias[i]] when a bias is bound.  In the end-to-end scenario the output
    buffer becomes [[2,3,4,1],[5,6,7,1]], whatever it held before. *)
Theorem exec_affine_computes :
  (forall (C : Conversions) (f : rt_function_t) (pimpl : affine_impl_t) (h : heap),
     allocate_affine_config f = Ok pimpl ->
     exec_ready pimpl h = true ->
     type (output pimpl) = NN_DATA_TYPE_FLOAT ->
     exists h',
       exec_affine pimpl h = Ok h' /\
       forall k i, 0 <= k < base_loop_size pimpl -> 0 <= i < output_loop_size pimpl ->
         load (data (output pimpl)) (k * output_loop_size pimpl + i) h'
         = Ok (affine_value pimpl h k i)) /\
  (forall prior : list F32.t, length prior = 8%nat ->
     exists pimpl h',
       allocate_affine_config (H := Scenario.raw_codes) Scenario.f = Ok pimpl /\
       exec_affine pimpl (Scenario.mem prior) = Ok h' /\
       h' !! data Scenario.v_output
       = Some (Scenario.floats [2; 3; 4; 1; 5; 6; 7; 1])).
Proof.
  split.
  - intros C f pimpl h Hres%allocate_affine_config_resolved Hready Hty.
    destruct (exec_affine_rows f pimpl h Hres Hready) as (b & Hb & Hlen & Hrun & Hrows).
    eexists. split; [exact Hrun|].
    intros k i Hk Hi. rewrite Hrows by assumption.
    rewrite (row_cell_float pimpl h Hready) by exact Hty. reflexivity.
  - intros prior Hlen.
    do 9 (destruct prior as [|? prior]; try discriminate Hlen).
    eexists. eexists. split; [vm_compute; reflexivity|]. split; vm_compute; reflexivity.
Qed.

Section ZeroBias.

Context `{Conversions}.

Lemma allocate_with_bias (vb : rt_variable_t) (f : rt_function_t) (pimpl2 : affine_impl_t) :
  num_of_inputs f = 2 ->
  allocate_affine_config f = Ok pimpl2 ->
  allocate_affine_config (with_bias vb f)
  = Ok {| impl_config := impl_config pimpl2;
          input := input pimpl2;
          get_input := get_input pimpl2;
          weight := weight pimpl2;
          get_weight := get_weight pimpl2;
          bias := Some vb;
          get_bias := Some (select_getter vb);
          output := output pimpl2;
          output_size := output_size pimpl2;
          set_output := set_output pimpl2;
          get_output := get_output pimpl2;
          base_loop_size := base_loop_size pimpl2;
          input_loop_size := input_loop_size pimpl2;
          output_loop_size := output_loop_size pimpl2 |} /\
  bias pimpl2 = None.
Proof.
  intros Hn. unfold allocate_affine_config, with_bias, assert, variable_at. simpl.
  rewrite Hn. simpl.
  destruct (num_of_outputs f =? 1); simpl; [|discriminate].
  destruct (inputs f) as [|vin [|vw vs]]; simpl; try discriminate.
  destruct (outputs f !! 0%nat) as [vout|]; simpl; [|discriminate].
  repeat match goal with
         | |- context [mbind _ ?m] => destruct m; simpl; [|discriminate]
         end.
  intros [= <-]. simpl. split; reflexivity.
Qed.

Lemma zero_bias_element (h : heap) (vb : rt_variable_t) n i :
  zero_bias h vb n = true -> 0 <= i < n -> F32.is_zero (element h vb i) = true.
Proof.
  unfold zero_bias. rewrite forallb_forall. intros Hall Hi.
  apply Hall, list_elem_of_In, elem_of_seqZ. lia.
Qed.

Lemma dot_step_settled pimpl (h : heap) k i count j0 :
  f32_settled
    (fold_from count j0 (fun j c =>
       F32.add c
         (F32.mul (element h (input pimpl) (k * input_loop_size pimpl + j))
                  (element h (weight pimpl) (j * output_loop_size pimpl + i))))
       F32.zero).
Proof.
  apply fold_from_invariant; [|apply F32Facts.zero_settled].
  intros j x Hx. apply F32Facts.mac_settled, Hx.
Qed.

(** C7: the kernel bound with two inputs and the kernel bound with the
    same inputs and a third, all-zero bias Variable leave the same memory;
    with two inputs each output element is the sum alone. *)
Theorem exec_affine_zero_bias (f : rt_function_t) (vb : rt_variable_t)
    (pimpl2 pimpl3 : affine_impl_t) (h : heap) :
  num_of_inputs f = 2 ->
  allocate_affine_config f = Ok pimpl2 ->
  allocate_affine_config (with_bias vb f) = Ok pimpl3 ->
  exec_ready pimpl3 h = true ->
  type (output pimpl3) = NN_DATA_TYPE_FLOAT ->
  zero_bias h vb (output_loop_size pimpl3) = true ->
  exists h',
    exec_affine pimpl2 h = Ok h' /\
    exec_affine pimpl3 h = Ok h' /\
    forall k i, 0 <= k < base_loop_size pimpl2 -> 0 <= i < output_loop_size pimpl2 ->
      load (data (output pimpl2)) (k * output_loop_size pimpl2 + i) h'
      = Ok (dot_row pimpl2 h k i).
Proof.
  intros Hn Hb2 Hb3 Hready3 Hty Hzero.
  destruct (allocate_with_bias vb f pimpl2 Hn Hb2) as [Hb3' Hnone].
  rewrite Hb3' in Hb3. injection Hb3 as <-. simpl in Hty, Hzero.
  assert (exec_ready pimpl2 h = true) as Hready2.
  { revert Hready3. unfold exec_ready. simpl. rewrite Hnone.
    intros Hr. apply andb_prop in Hr as [Hr _]. rewrite Hr. reflexivity. }
  pose proof (allocate_affine_config_resolved _ _ Hb2) as Hres2.
  pose proof (allocate_affine_config_resolved _ _ Hb3') as Hres3.
  destruct (exec_affine_rows _ _ h Hres2 Hready2) as (b & Hb & Hlen & Hrun2 & Hrows2).
  destruct (exec_affine_rows _ _ h Hres3 Hready3) as (b' & Hb' & _ & Hrun3 & _).
  simpl in Hb', Hrun3. rewrite Hb in Hb'. injection Hb' as <-.
  exists (<[data (output pimpl2) := imap (exec_cell pimpl2 h) b]> h).
  split; [exact Hrun2|]. split.
  - rewrite Hrun3. do 2 f_equal. apply imap_ext. intros p c Hc.
    destruct (Z.lt_ge_cases (Z.of_nat p) (output_size pimpl2)) as [Hin|Hout].
    + destruct (exec_cell_row_of pimpl2 h Hready2 p Hin) as (k & i & Hk & Hi & Hp & Hrow).
      rewrite Hrow, Hp.
      rewrite (exec_cell_in_row _ h Hready3) by assumption.
      unfold row_cell. simpl. rewrite Hnone, Hty. simpl.
      apply F32Facts.add_zero_r.
      * apply dot_step_settled.
      * eapply zero_bias_element; eassumption.
    + rewrite (exec_cell_outside _ h Hready3) by exact Hout.
      rewrite (exec_cell_outside _ h Hready2) by exact Hout. reflexivity.
  - intros k i Hk Hi. rewrite Hrows2 by assumption.
    rewrite (row_cell_float pimpl2 h Hready2) by exact Hty.
    unfold affine_value. rewrite Hnone. reflexivity.
Qed.

End ZeroBias.

(** ** The theorems at the end-to-end scenario *)

Section Instances.

#[local] Existing Instance Scenario.raw_codes.

Lemma exec_affine_computes_witness :
  exists h',
    exec_affine Scenario.pimpl (Scenario.mem Scenario.stale) = Ok h' /\
    forall k i, 0 <= k < 2 -> 0 <= i < 4 ->
      load 400 (k * 4 + i) h'
      = Ok (affine_value Scenario.pimpl (Scenario.mem Scenario.stale) k i).
Proof.
  apply (proj1 exec_affine_computes Scenario.raw_codes Scenario.f Scenario.pimpl);
    reflexivity.
Defined.

Lemma exec_affine_strategies_agree_witness :
  exec_affine_generic Scenario.pimpl (Scenario.mem Scenario.stale)
  = exec_affine_float Scenario.pimpl (Scenario.mem Scenario.stale).
Proof.
  apply (exec_affine_strategies_agree Scenario.f).
  - reflexivity.
  - repeat split. right. exists Scenario.v_bias. split; reflexivity.
  - discriminate.
Defined.

Lemma allocate_affine_config_extents_witness :
  exists pimpl,
    allocate_affine_config Scenario.f = Ok pimpl /\
    base_loop_size pimpl = Int.wrap (shape_product (take 1 [2; 3])) /\
    Int.mul (base_loop_size pimpl) (input_loop_size pimpl) = Int.wrap (shape_product [2; 3]) /\
    (Forall (fun d => 0 <= d) [2; 3] -> shape_product [2; 3] < Int.half_modulus ->
     base_loop_size pimpl * input_loop_size pimpl = shape_product [2; 3]) /\
    (Int.wrap (shape_product (take 1 [2; 4])) = base_loop_size pimpl ->
     Int.mul (base_loop_size pimpl) (output_loop_size pimpl) = Int.wrap (shape_product [2; 4]) /\
     output_size pimpl = Int.wrap (shape_product [2; 4]) /\
     (Forall (fun d => 0 <= d) [2; 4] -> shape_product [2; 4] < Int.half_modulus ->
      base_loop_size pimpl * output_loop_size pimpl = shape_product [2; 4])).
Proof.
  apply (allocate_affine_config_extents Scenario.f
           Scenario.v_input Scenario.v_weight Scenario.v_output).
  - right. reflexivity.
  - reflexivity.
  - reflexivity.
  - reflexivity.
  - reflexivity.
  - intros _. exists Scenario.v_bias. reflexivity.
  - split; discriminate.
Defined.

Lemma exec_affine_zero_bias_witness :
  exists h',
    exec_affine (Scenario.impl None) Scenario.mem_zero_bias = Ok h' /\
    exec_affine (Scenario.impl (Some Scenario.v_zero_bias)) Scenario.mem_zero_bias = Ok h' /\
    forall k i, 0 <= k < 2 -> 0 <= i < 4 ->
      load 400 (k * 4 + i) h'
      = Ok (dot_row (Scenario.impl None) Scenario.mem_zero_bias k i).
Proof.
  apply (exec_affine_zero_bias Scenario.f_no_bias Scenario.v_zero_bias); reflexivity.
Defined.

Lemma exec_affine_frame_witness :
  (forall q, q <> 400 ->
     Scenario.mem Scenario.expected !! q = Scenario.mem Scenario.stale !! q) /\
  length <$> Scenario.mem Scenario.expected !! 400
  = length <$> Scenario.mem Scenario.stale !! 400.
Proof.
  apply (exec_affine_frame Scenario.f Scenario.pimpl).
  - reflexivity.
  - left. vm_compute. reflexivity.
Defined.

Lemma exec_affine_no_rows_witness :
  output_size Scenario.pimpl_empty = 0 /\
  exec_affine Scenario.pimpl_empty (Scenario.mem Scenario.stale)
  = Ok (Scenario.mem Scenario.stale) /\
  exec_affine_float Scenario.pimpl_empty (Scenario.mem Scenario.stale)
  = Ok (Scenario.mem Scenario.stale) /\
  exec_affine_generic Scenario.pimpl_empty (Scenario.mem Scenario.stale)
  = Ok (Scenario.mem Scenario.stale).
Proof.
  destruct (exec_affine_no_rows Scenario.f_empty Scenario.pimpl_empty
              (Scenario.mem Scenario.stale)) as (_ & _ & Hrun);
    [reflexivity|reflexivity|].
  apply Hrun. reflexivity.
Defined.

Lemma exec_affine_ignores_old_output_witness :
  exists b h1,
    Scenario.mem Scenario.stale !! 400 = Some b /\
    exec_affine Scenario.pimpl (Scenario.mem Scenario.stale) = Ok h1 /\
    exec_affine Scenario.pimpl h1 = Ok h1 /\
    forall prior : list F32.t, length prior = length b ->
      exists h2,
        exec_affine Scenario.pimpl (<[400 := prior]> (Scenario.mem Scenario.stale)) = Ok h2 /\
        (forall pos, 0 <= pos < 8 -> load 400 pos h2 = load 400 pos h1) /\
        (forall q, q <> 400 -> h2 !! q = h1 !! q).
Proof.
  apply (exec_affine_ignores_old_output Scenario.f Scenario.pimpl); reflexivity.
Defined.

(** Bind accepts a weight of 5 elements and a bias of 7 where the extents
    ask for 12 and 4: it validates neither count. *)
Lemma allocate_affine_config_accepts_wrong_counts :
  exists pimpl b,
    allocate_affine_config Scenario.f_wrong_counts = Ok pimpl /\
    bias pimpl = Some b /\
    shape_product (shape (weight pimpl))
      <> input_loop_size pimpl * output_loop_size pimpl /\
    shape_product (shape b) <> output_loop_size pimpl.
Proof.
  eexists. eexists. split; [vm_compute; reflexivity|].
  split; [reflexivity|]. split; vm_compute; discriminate.
Qed.

(** With [base_axis = 3] on an input of rank 2, bind reports no
    configuration error: it has no check of [base_axis] and reads the
    shape array out of its bounds. *)
Lemma allocate_affine_config_unchecked_axis :
  ~ (0 <= base_axis (config Scenario.f_axis) <= rt_list_size (shape Scenario.v_input)) /\
  allocate_affine_config Scenario.f_axis <> Fault AssertionFailed /\
  allocate_affine_config Scenario.f_axis = Fault UndefinedBehaviour.
Proof.
  split; [|split].
  - vm_compute. intros [_ Hle]. apply Hle. reflexivity.
  - vm_compute. discriminate.
  - vm_compute. reflexivity.
Qed.

(** C9 as the specification words it fails: an input of shape [0; 3]
    binds with an output of shape [2; 4]; [base_loop_size] is 0 and
    [output_size] is 8, and the run writes the stored zero over the 8
    elements of the output buffer. *)
Lemma exec_affine_no_rows_clears :
  allocate_affine_config Cases.f_no_rows = Ok (Cases.bound Cases.f_no_rows) /\
  base_loop_size (Cases.bound Cases.f_no_rows) = 0 /\
  output_size (Cases.bound Cases.f_no_rows) = 8 /\
  Scenario.mem Scenario.stale !! 400 = Some (Scenario.floats [9; 9; 9; 9; 9; 9; 9; 9]) /\
  exists h',
    exec_affine (Cases.bound Cases.f_no_rows) (Scenario.mem Scenario.stale) = Ok h' /\
    h' !! 400 = Some (Scenario.floats [0; 0; 0; 0; 0; 0; 0; 0]) /\
    h' <> Scenario.mem Scenario.stale.
Proof.
  split; [reflexivity|]. split; [reflexivity|]. split; [reflexivity|].
  split; [reflexivity|].
  exists (Scenario.mem (Scenario.floats [0; 0; 0; 0; 0; 0; 0; 0])).
  split; [vm_compute; reflexivity|]. split; [reflexivity|].
  intros E. apply (f_equal (fun m : heap => m !! 400)) in E.
  vm_compute in E. discriminate.
Qed.

End Instances.

(** * Further properties of the kernel *)

(** ** Bind *)

Section BindFurther.

Context `{Conversions}.

Lemma shape_loop_from_end (s : rt_list_t) count i acc x :
  for_from count i (fun i acc => d ← rt_list_data s i; Ok (Int.mul acc d)) acc = Ok x ->
  (0 < count)%nat -> 0 <= i /\ i + Z.of_nat count <= rt_list_size s.
Proof.
  unfold rt_list_size. revert i acc.
  induction count as [|count IH]; intros i acc Hx Hc; [lia|]. simpl in Hx.
  destruct (Z.lt_ge_cases i 0) as [Hneg|Hpos].
  { rewrite rt_list_data_neg in Hx by exact Hneg. discriminate. }
  destruct (s !! Z.to_nat i) as [d|] eqn:Hd.
  - rewrite (rt_list_data_ok _ _ _ Hpos Hd) in Hx. simpl in Hx.
    apply lookup_lt_Some in Hd.
    destruct count as [|count']; [lia|].
    destruct (IH _ _ Hx) as [_ Hend]; lia.
  - unfold rt_list_data in Hx. destruct (i <? 0); [discriminate|].
    rewrite Hd in Hx. discriminate.
Qed.

Lemma shape_loop_end (s : rt_list_t) lo hi x :
  shape_loop s lo hi = Ok x -> lo < hi -> 0 <= lo /\ hi <= rt_list_size s.
Proof.
  unfold shape_loop, for_loop. intros Hx Hlt.
  destruct (shape_loop_from_end s _ _ _ _ Hx); lia.
Qed.

Lemma allocate_affine_config_checked f pimpl :
  allocate_affine_config f = Ok pimpl ->
  (num_of_inputs f = 2 \/ num_of_inputs f = 3) /\ num_of_outputs f = 1 /\
  (num_of_inputs f = 3 -> is_Some (inputs f !! 2%nat)).
Proof.
  unfold allocate_affine_config, assert, variable_at.
  destruct (Z.eqb_spec (num_of_inputs f) 2) as [H2|H2];
    destruct (Z.eqb_spec (num_of_inputs f) 3) as [H3|H3]; simpl; try discriminate;
    (destruct (Z.eqb_spec (num_of_outputs f) 1) as [H1|H1]; simpl; [|discriminate]);
    try lia.
  destruct (inputs f !! 0%nat); simpl; [|discriminate].
  destruct (inputs f !! 1%nat); simpl; [|discriminate].
  destruct (outputs f !! 0%nat); simpl; [|discriminate].
  replace (2 <? num_of_inputs f) with true by (rewrite H3; reflexivity).
  destruct (inputs f !! 2%nat) as [vb|]; simpl; [|discriminate].
  intros _. repeat split; [right; exact H3|exact H1|eauto].
Qed.

(** X1: bind returns a state exactly when the function has 2 or 3 inputs
    and 1 output, the Variables it names are there, and [base_axis] lies
    in [0, rank of the input]. *)
Theorem allocate_affine_config_succeeds_iff (f : rt_function_t) :
  (exists pimpl, allocate_affine_config f = Ok pimpl) <->
  (num_of_inputs f = 2 \/ num_of_inputs f = 3) /\
  num_of_outputs f = 1 /\
  (exists vin, inputs f !! 0%nat = Some vin /\
               0 <= base_axis (config f) <= rt_list_size (shape vin)) /\
  is_Some (inputs f !! 1%nat) /\
  is_Some (outputs f !! 0%nat) /\
  (num_of_inputs f = 3 -> is_Some (inputs f !! 2%nat)).
Proof.
  split.
  - intros [pimpl Hb].
    destruct (allocate_affine_config_checked f pimpl Hb) as (Hn & Hm & Hbias).
    pose proof (allocate_affine_config_axis f pimpl Hb) as Hax.
    pose proof (allocate_affine_config_resolved f pimpl Hb)
      as (Hin & Hw & Hout & _ & _ & _ & _ & _ & _ & _ & _ & Hbase & _).
    repeat split; try assumption; eauto.
    exists (input pimpl). split; [exact Hin|]. split; [exact Hax|].
    destruct (Z.eq_dec (base_axis (config f)) 0) as [->|Hne];
      [unfold rt_list_size; lia|].
    apply (shape_loop_end _ _ _ _ Hbase). lia.
  - intros (Hn & Hm & (vin & Hin & Hax) & [vw Hw] & [vout Hout] & Hbias).
    destruct (allocate_affine_config_ok f vin vw vout Hn Hm Hin Hw Hout Hbias Hax)
      as (pimpl & Hb & _).
    exists pimpl. exact Hb.
Qed.

(** X2: the extents at the ends of the axis range.  With [base_axis = 0]
    there is one row; with [base_axis] the rank of the input, one input
    feature per row; and a [base_axis] at or past the rank of the output,
    which bind does not check, gives one output feature per row. *)
Theorem allocate_affine_config_edge_axes (f : rt_function_t) (pimpl : affine_impl_t) :
  allocate_affine_config f = Ok pimpl ->
  (base_axis (config f) = 0 -> base_loop_size pimpl = 1) /\
  (base_axis (config f) = rt_list_size (shape (input pimpl)) -> input_loop_size pimpl = 1) /\
  (rt_list_size (shape (output pimpl)) <= base_axis (config f) ->
   output_loop_size pimpl = 1).
Proof.
  intros Hb.
  pose proof (allocate_affine_config_resolved f pimpl Hb)
    as (_ & _ & _ & _ & _ & _ & _ & _ & _ & _ & _ & Hbase & Hils & Hols).
  unfold shape_loop in *. repeat split.
  - intros Hax. rewrite Hax, for_loop_empty in Hbase by lia. congruence.
  - intros Hax. rewrite Hax, for_loop_empty in Hils by lia. congruence.
  - intros Hax. rewrite for_loop_empty in Hols by lia. congruence.
Qed.

End BindFurther.

(** ** Accesses out of bounds *)

Lemma for_from_reaches_fault {S : Type} (P : S -> Prop) (e0 : fault)
    (body : Z -> S -> result S) count i j s :
  (forall l t t', P t -> body l t = Ok t' -> P t') ->
  (forall l t e, body l t = Fault e -> e = e0) ->
  (forall t, P t -> body j t = Fault e0) ->
  i <= j < i + Z.of_nat count -> P s ->
  for_from count i body s = Fault e0.
Proof.
  intros Hpres Hkind Hfault. revert i s.
  induction count as [|count IH]; intros i s Hj Hs; [lia|]. simpl.
  destruct (body i s) as [t|e] eqn:Hbody; simpl.
  - destruct (Z.eq_dec i j) as [->|Hne].
    + rewrite (Hfault s Hs) in Hbody. discriminate.
    + apply IH; [lia|]. eapply Hpres; eassumption.
  - rewrite (Hkind _ _ _ Hbody). reflexivity.
Qed.

Lemma for_loop_reaches_fault {S : Type} (P : S -> Prop) (e0 : fault)
    (body : Z -> S -> result S) lo hi j s :
  (forall l t t', P t -> body l t = Ok t' -> P t') ->
  (forall l t e, body l t = Fault e -> e = e0) ->
  (forall t, P t -> body j t = Fault e0) ->
  lo <= j < hi -> P s ->
  for_loop lo hi body s = Fault e0.
Proof.
  intros Hpres Hkind Hfault Hj Hs. unfold for_loop.
  eapply for_from_reaches_fault; try eassumption. lia.
Qed.

Lemma for_loop_fault {S : Type} (e0 : fault) (body : Z -> S -> result S) lo hi s e :
  (forall j t e', body j t = Fault e' -> e' = e0) ->
  for_loop lo hi body s = Fault e -> e = e0.
Proof. unfold for_loop. apply for_from_fault. Qed.

Section Bounds.

Context `{Conversions}.

Lemma load_fault p pos (t : heap) e : load p pos t = Fault e -> e = UndefinedBehaviour.
Proof.
  unfold load. destruct (pos <? 0); [congruence|].
  destruct (t !! p) as [b|]; [|congruence]. destruct (b !! Z.to_nat pos); congruence.
Qed.

Lemma store_fault p pos x (t : heap) e : store p pos x t = Fault e -> e = UndefinedBehaviour.
Proof.
  unfold store. destruct (pos <? 0); [congruence|].
  destruct (t !! p) as [b|]; [|congruence].
  destruct (Z.to_nat pos <? length b)%nat; congruence.
Qed.

Lemma getter_fault (v v' : rt_variable_t) pos (t : heap) e :
  select_getter v v' pos t = Fault e -> e = UndefinedBehaviour.
Proof.
  rewrite select_getter_load.
  destruct (load (data v') pos t) as [c|e'] eqn:Hl; simpl; [discriminate|].
  intros [= <-]. eapply load_fault. eassumption.
Qed.

Lemma setter_fault (v v' : rt_variable_t) pos x (t : heap) e :
  select_setter v v' pos x t = Fault e -> e = UndefinedBehaviour.
Proof. rewrite select_setter_store. apply store_fault. Qed.

(** A read past the elements of a buffer. *)
Lemma load_uncovered p pos (t : heap) :
  covers t p (pos + 1) = false -> load p pos t = Fault UndefinedBehaviour.
Proof.
  unfold covers, load. intros Hc. destruct (Z.ltb_spec pos 0) as [|Hpos]; [reflexivity|].
  destruct (t !! p) as [b|]; [|reflexivity].
  apply Z.leb_gt in Hc. rewrite lookup_ge_None_2 by lia. reflexivity.
Qed.

Lemma store_uncovered p pos x (t : heap) :
  covers t p (pos + 1) = false -> store p pos x t = Fault UndefinedBehaviour.
Proof.
  unfold covers, store. intros Hc. destruct (Z.ltb_spec pos 0) as [|Hpos]; [reflexivity|].
  destruct (t !! p) as [b|]; [|reflexivity].
  apply Z.leb_gt in Hc.
  destruct (Nat.ltb_spec (Z.to_nat pos) (length b)) as [|_]; [lia|reflexivity].
Qed.

Lemma getter_uncovered (v v' : rt_variable_t) pos (t : heap) :
  covers t (data v') (pos + 1) = false ->
  select_getter v v' pos t = Fault UndefinedBehaviour.
Proof. intros Hc. rewrite select_getter_load, load_uncovered by exact Hc. reflexivity. Qed.

Lemma covers_le (t : heap) p n m :
  covers t p n = false -> n <= m -> covers t p m = false.
Proof.
  unfold covers. destruct (t !! p); [|reflexivity].
  intros Hn Hle. apply Z.leb_gt in Hn. apply Z.leb_gt. lia.
Qed.

Lemma only_changes_covers out (h0 t : heap) p n :
  only_changes out h0 t -> covers t p n = covers h0 p n.
Proof.
  intros [Hother Hlen]. unfold covers.
  destruct (Z.eq_dec p out) as [->|Hne].
  - destruct (t !! out), (h0 !! out); simpl in Hlen; try discriminate; [|reflexivity].
    injection Hlen as ->. reflexivity.
  - rewrite (Hother p Hne). reflexivity.
Qed.

Variable f : rt_function_t.
Variable pimpl : affine_impl_t.
Hypothesis Hres : resolved f pimpl.

Let out : Z := data (output pimpl).

Lemma call_get_bias_resolved b :
  bias pimpl = Some b -> call_get_bias pimpl = select_getter b.
Proof.
  intros Hb. destruct Hres as (_ & _ & _ & _ & _ & _ & Hgb & _).
  unfold call_get_bias. rewrite Hgb, Hb. reflexivity.
Qed.

Lemma generic_mac_fault k j u i t e :
  generic_mac pimpl k j u i t = Fault e -> e = UndefinedBehaviour.
Proof.
  destruct Hres as (_ & _ & _ & _ & _ & Hgw & _ & Hgo & Hset & _).
  unfold generic_mac. cbv zeta. rewrite Hgw, Hgo, Hset.
  destruct (select_getter (weight pimpl) _ _ t) as [w|e1] eqn:E1; simpl;
    [|intros [= <-]; eapply getter_fault; eassumption].
  destruct (select_getter (output pimpl) _ _ t) as [o|e2] eqn:E2; simpl;
    [|intros [= <-]; eapply getter_fault; eassumption].
  apply setter_fault.
Qed.

Lemma generic_mac_only_changes (h0 : heap) k j u i t t' :
  only_changes out h0 t -> generic_mac pimpl k j u i t = Ok t' -> only_changes out h0 t'.
Proof.
  destruct Hres as (_ & _ & _ & _ & _ & _ & _ & _ & Hset & _).
  unfold generic_mac. cbv zeta. rewrite Hset. intros Ht.
  destruct (get_weight pimpl _ _ t); simpl; [|discriminate].
  destruct (get_output pimpl _ _ t); simpl; [|discriminate].
  rewrite select_setter_store. apply store_only_changes, Ht.
Qed.

Lemma generic_feature_fault k j t e :
  generic_feature pimpl k j t = Fault e -> e = UndefinedBehaviour.
Proof.
  destruct Hres as (_ & _ & _ & _ & Hgi & _).
  unfold generic_feature. cbv zeta. rewrite Hgi.
  destruct (select_getter (input pimpl) _ _ t) as [u|e1] eqn:E1; simpl;
    [|intros [= <-]; eapply getter_fault; eassumption].
  apply for_loop_fault. intros i t' e'. apply generic_mac_fault.
Qed.

Lemma generic_feature_only_changes (h0 : heap) k j t t' :
  only_changes out h0 t -> generic_feature pimpl k j t = Ok t' -> only_changes out h0 t'.
Proof.
  unfold generic_feature. cbv zeta. intros Ht.
  destruct (get_input pimpl _ _ t) as [u|]; simpl; [|discriminate].
  apply for_loop_only_changes; [|exact Ht].
  intros i s s'. apply generic_mac_only_changes.
Qed.

Lemma generic_bias_fault k b i t e :
  bias pimpl = Some b ->
  generic_bias pimpl k b i t = Fault e -> e = UndefinedBehaviour.
Proof.
  intros Hb. destruct Hres as (_ & _ & _ & _ & _ & _ & _ & Hgo & Hset & _).
  unfold generic_bias. cbv zeta. rewrite Hgo, Hset, (call_get_bias_resolved b Hb).
  destruct (select_getter (output pimpl) _ _ t) as [o|e1] eqn:E1; simpl;
    [|intros [= <-]; eapply getter_fault; eassumption].
  destruct (select_getter b _ _ t) as [c|e2] eqn:E2; simpl;
    [|intros [= <-]; eapply getter_fault; eassumption].
  apply setter_fault.
Qed.

Lemma generic_bias_only_changes (h0 : heap) k b i t t' :
  only_changes out h0 t -> generic_bias pimpl k b i t = Ok t' -> only_changes out h0 t'.
Proof.
  destruct Hres as (_ & _ & _ & _ & _ & _ & _ & _ & Hset & _).
  unfold generic_bias. cbv zeta. rewrite Hset. intros Ht.
  destruct (get_output pimpl _ _ t); simpl; [|discriminate].
  destruct (call_get_bias pimpl _ _ t); simpl; [|discriminate].
  rewrite select_setter_store. apply store_only_changes, Ht.
Qed.

Lemma generic_row_fault k t e :
  generic_row pimpl k t = Fault e -> e = UndefinedBehaviour.
Proof.
  unfold generic_row.
  destruct (for_loop 0 (input_loop_size pimpl) (generic_feature pimpl k) t)
    as [t1|e1] eqn:E1; simpl.
  - destruct (bias pimpl) as [b|] eqn:Hb; [|discriminate].
    apply for_loop_fault. intros i t' e'. apply generic_bias_fault, Hb.
  - intros [= <-]. revert E1. apply for_loop_fault.
    intros j t' e'. apply generic_feature_fault.
Qed.

Lemma generic_row_only_changes (h0 : heap) k t t' :
  only_changes out h0 t -> generic_row pimpl k t = Ok t' -> only_changes out h0 t'.
Proof.
  unfold generic_row. intros Ht.
  destruct (for_loop 0 (input_loop_size pimpl) (generic_feature pimpl k) t)
    as [t1|e1] eqn:E1; simpl; [|discriminate].
  assert (only_changes out h0 t1) as Ht1.
  { revert E1. apply for_loop_only_changes; [|exact Ht].
    intros j s s'. apply generic_feature_only_changes. }
  destruct (bias pimpl) as [b|]; [|congruence].
  apply for_loop_only_changes; [|exact Ht1].
  intros i s s'. apply generic_bias_only_changes.
Qed.

Lemma generic_clear_fault t e :
  generic_clear pimpl t = Fault e -> e = UndefinedBehaviour.
Proof.
  destruct Hres as (_ & _ & _ & _ & _ & _ & _ & _ & Hset & _).
  unfold generic_clear. rewrite Hset. apply for_loop_fault.
  intros i t' e'. apply setter_fault.
Qed.

Lemma generic_clear_only_changes (h0 : heap) t t' :
  only_changes out h0 t -> generic_clear pimpl t = Ok t' -> only_changes out h0 t'.
Proof.
  destruct Hres as (_ & _ & _ & _ & _ & _ & _ & _ & Hset & _).
  unfold generic_clear. rewrite Hset. intros Ht.
  apply for_loop_only_changes; [|exact Ht].
  intros i s s' Hs. rewrite select_setter_store. apply store_only_changes, Hs.
Qed.

Lemma exec_affine_generic_stages (h : heap) :
  exec_affine_generic pimpl h
  = (t ← generic_clear pimpl h; for_loop 0 (base_loop_size pimpl) (generic_row pimpl) t).
Proof. reflexivity. Qed.

(** The Generic strategy faults when some row faults on every memory
    that differs from the initial one in the output buffer only. *)
Lemma exec_affine_generic_row_fault (h : heap) k :
  0 <= k < base_loop_size pimpl ->
  (forall t, only_changes out h t -> generic_row pimpl k t = Fault UndefinedBehaviour) ->
  exec_affine_generic pimpl h = Fault UndefinedBehaviour.
Proof.
  intros Hk Hrow. rewrite exec_affine_generic_stages.
  destruct (generic_clear pimpl h) as [t1|e1] eqn:E1; simpl.
  - apply (for_loop_reaches_fault (only_changes out h) _ _ _ _ k).
    + intros l t t'. apply generic_row_only_changes.
    + intros l t e. apply generic_row_fault.
    + exact Hrow.
    + exact Hk.
    + eapply generic_clear_only_changes; [apply only_changes_refl|exact E1].
  - rewrite (generic_clear_fault _ _ E1). reflexivity.
Qed.

(** The dispatch faults when the Generic strategy does. *)
Lemma exec_affine_fault_of_generic (h : heap) :
  exec_affine_generic pimpl h = Fault UndefinedBehaviour ->
  exec_affine pimpl h = Fault UndefinedBehaviour.
Proof.
  intros Hg. unfold exec_affine.
  destruct (select_strategy pimpl) eqn:Hs; [|exact Hg].
  destruct (Z.lt_ge_cases (output_size pimpl) 0) as [Hneg|Hpos].
  - unfold exec_affine_float, memset_zero.
    destruct (Z.ltb_spec (output_size pimpl) 0) as [_|]; [reflexivity|lia].
  - rewrite <- (strategies_agree f) by
      (first [exact Hres | apply select_strategy_direct, Hs | exact Hpos]).
    exact Hg.
Qed.

End Bounds.

Section OutOfBounds.

Context `{Conversions}.
Variable f : rt_function_t.
Variable pimpl : affine_impl_t.
Variable h : heap.
Hypothesis Hres : resolved f pimpl.

Let out : Z := data (output pimpl).

Lemma clear_uncovered :
  covers h out (output_size pimpl) = false -> 0 < output_size pimpl ->
  exists j, 0 <= j < output_size pimpl /\
            forall t, only_changes out h t -> covers t out (j + 1) = false.
Proof.
  intros Hc Hpos. unfold covers in Hc.
  destruct (h !! out) as [b|] eqn:Hb.
  - apply Z.leb_gt in Hc. exists (Z.of_nat (length b)). split; [lia|].
    intros t Ht. rewrite (only_changes_covers _ _ _ _ _ Ht). unfold covers.
    rewrite Hb. apply Z.leb_gt. lia.
  - exists 0. split; [lia|].
    intros t Ht. rewrite (only_changes_covers _ _ _ _ _ Ht). unfold covers.
    rewrite Hb. reflexivity.
Qed.

Lemma generic_clear_too_short :
  covers h out (output_size pimpl) = false -> 0 < output_size pimpl ->
  generic_clear pimpl h = Fault UndefinedBehaviour.
Proof.
  intros Hc Hpos. destruct (clear_uncovered Hc Hpos) as (j & Hj & Hun).
  destruct Hres as (_ & _ & _ & _ & _ & _ & _ & _ & Hset & _).
  unfold generic_clear. rewrite Hset.
  apply (for_loop_reaches_fault (only_changes out h) _ _ _ _ j).
  - intros l t t' Ht. rewrite select_setter_store. apply store_only_changes, Ht.
  - intros l t e. apply setter_fault.
  - intros t Ht. rewrite select_setter_store. apply store_uncovered, Hun, Ht.
  - exact Hj.
  - apply only_changes_refl.
Qed.

Lemma memset_zero_too_short :
  covers h out (output_size pimpl) = false -> 0 < output_size pimpl ->
  memset_zero out (output_size pimpl) h = Fault UndefinedBehaviour.
Proof.
  intros Hc Hpos. destruct (clear_uncovered Hc Hpos) as (j & Hj & Hun).
  unfold memset_zero. destruct (Z.ltb_spec (output_size pimpl) 0) as [|_]; [lia|].
  apply (for_loop_reaches_fault (only_changes out h) _ _ _ _ j).
  - intros l t t' Ht. apply store_only_changes, Ht.
  - intros l t e. apply store_fault.
  - intros t Ht. apply store_uncovered, Hun, Ht.
  - exact Hj.
  - apply only_changes_refl.
Qed.

Lemma input_too_short :
  0 < base_loop_size pimpl -> 0 < input_loop_size pimpl ->
  base_loop_size pimpl * input_loop_size pimpl < Int.half_modulus ->
  covers h (data (input pimpl)) (base_loop_size pimpl * input_loop_size pimpl) = false ->
  exec_affine_generic pimpl h = Fault UndefinedBehaviour.
Proof.
  intros Hb Hi Hfit Hc.
  apply (exec_affine_generic_row_fault f pimpl Hres h (base_loop_size pimpl - 1)); [lia|].
  intros t Ht. unfold generic_row.
  rewrite (for_loop_reaches_fault (only_changes out h) UndefinedBehaviour _ _ _
             (input_loop_size pimpl - 1)); [reflexivity| | | |lia|exact Ht].
  - intros l s s'. apply (generic_feature_only_changes f pimpl Hres).
  - intros l s e. apply (generic_feature_fault f pimpl Hres).
  - intros s Hs. unfold generic_feature. cbv zeta.
    destruct Hres as (_ & _ & _ & _ & Hgi & _). rewrite Hgi.
    destruct (index_small (base_loop_size pimpl - 1) (base_loop_size pimpl)
                (input_loop_size pimpl - 1) (input_loop_size pimpl)) as [-> _];
      [lia|lia|exact Hfit|].
    rewrite getter_uncovered; [reflexivity|].
    rewrite (only_changes_covers _ _ _ _ _ Hs).
    eapply covers_le; [exact Hc|lia].
Qed.

Lemma weight_too_short :
  0 < base_loop_size pimpl -> 0 < input_loop_size pimpl -> 0 < output_loop_size pimpl ->
  input_loop_size pimpl * output_loop_size pimpl < Int.half_modulus ->
  covers h (data (weight pimpl)) (input_loop_size pimpl * output_loop_size pimpl) = false ->
  exec_affine_generic pimpl h = Fault UndefinedBehaviour.
Proof.
  intros Hb Hi Ho Hfit Hc.
  apply (exec_affine_generic_row_fault f pimpl Hres h 0); [lia|].
  intros t Ht. unfold generic_row.
  rewrite (for_loop_reaches_fault (only_changes out h) UndefinedBehaviour _ _ _
             (input_loop_size pimpl - 1)); [reflexivity| | | |lia|exact Ht].
  - intros l s s'. apply (generic_feature_only_changes f pimpl Hres).
  - intros l s e. apply (generic_feature_fault f pimpl Hres).
  - intros s Hs. unfold generic_feature. cbv zeta.
    destruct (get_input pimpl _ _ s) as [u|e] eqn:Hu; simpl.
    + apply (for_loop_reaches_fault (only_changes out h) _ _ _ _
               (output_loop_size pimpl - 1)); [| | |lia|exact Hs].
      * intros l r r'. apply (generic_mac_only_changes f pimpl Hres).
      * intros l r e. apply (generic_mac_fault f pimpl Hres).
      * intros r Hr. unfold generic_mac. cbv zeta.
        destruct Hres as (_ & _ & _ & _ & _ & Hgw & _). rewrite Hgw.
        destruct (index_small (input_loop_size pimpl - 1) (input_loop_size pimpl)
                    (output_loop_size pimpl - 1) (output_loop_size pimpl)) as [-> _];
          [lia|lia|exact Hfit|].
        rewrite getter_uncovered; [reflexivity|].
        rewrite (only_changes_covers _ _ _ _ _ Hr).
        eapply covers_le; [exact Hc|lia].
    + destruct Hres as (_ & _ & _ & _ & Hgi & _). rewrite Hgi in Hu.
      rewrite (getter_fault _ _ _ _ _ Hu). reflexivity.
Qed.

Lemma bias_too_short b :
  bias pimpl = Some b ->
  0 < base_loop_size pimpl -> 0 < output_loop_size pimpl ->
  covers h (data b) (output_loop_size pimpl) = false ->
  exec_affine_generic pimpl h = Fault UndefinedBehaviour.
Proof.
  intros Hbias Hb Ho Hc.
  apply (exec_affine_generic_row_fault f pimpl Hres h 0); [lia|].
  intros t Ht. unfold generic_row.
  destruct (for_loop 0 (input_loop_size pimpl) (generic_feature pimpl 0) t)
    as [t1|e1] eqn:E1; simpl.
  - assert (only_changes out h t1) as Ht1.
    { revert E1. apply for_loop_only_changes; [|exact Ht].
      intros j s s'. apply (generic_feature_only_changes f pimpl Hres). }
    rewrite Hbias.
    apply (for_loop_reaches_fault (only_changes out h) _ _ _ _
             (output_loop_size pimpl - 1)); [| | |lia|exact Ht1].
    + intros l r r'. apply (generic_bias_only_changes f pimpl Hres).
    + intros l r e. apply (generic_bias_fault f pimpl Hres), Hbias.
    + intros r Hr. unfold generic_bias. cbv zeta.
      rewrite (call_get_bias_resolved f pimpl Hres b Hbias).
      destruct (get_output pimpl _ _ r) as [o|e] eqn:Hgo; simpl.
      * rewrite getter_uncovered; [reflexivity|].
        rewrite (only_changes_covers _ _ _ _ _ Hr).
        eapply covers_le; [exact Hc|lia].
      * destruct Hres as (_ & _ & _ & _ & _ & _ & _ & Hg & _). rewrite Hg in Hgo.
        rewrite (getter_fault _ _ _ _ _ Hgo). reflexivity.
  - f_equal. revert E1. apply for_loop_fault.
    intros j s e. apply (generic_feature_fault f pimpl Hres).
Qed.

End OutOfBounds.

Section OutOfBoundsTheorems.

Context `{Conversions}.

(** X3: when the output buffer is missing or holds fewer than
    [output_size] elements, and [output_size] is positive, the run is
    undefined by either strategy: the clearing stage writes past the
    buffer. *)
Theorem exec_affine_output_too_short (f : rt_function_t) (pimpl : affine_impl_t) (h : heap) :
  allocate_affine_config f = Ok pimpl ->
  0 < output_size pimpl ->
  covers h (data (output pimpl)) (output_size pimpl) = false ->
  exec_affine pimpl h = Fault UndefinedBehaviour /\
  exec_affine_float pimpl h = Fault UndefinedBehaviour /\
  exec_affine_generic pimpl h = Fault UndefinedBehaviour.
Proof.
  intros Hres%allocate_affine_config_resolved Hpos Hc.
  assert (exec_affine_float pimpl h = Fault UndefinedBehaviour) as Hf.
  { unfold exec_affine_float. cbv zeta.
    rewrite (memset_zero_too_short pimpl h) by assumption. reflexivity. }
  assert (exec_affine_generic pimpl h = Fault UndefinedBehaviour) as Hg.
  { rewrite (exec_affine_generic_stages pimpl h),
      (generic_clear_too_short f pimpl h) by assumption. reflexivity. }
  repeat split; try assumption.
  unfold exec_affine. destruct (select_strategy pimpl); assumption.
Qed.

(** X4: with at least one row, the run is undefined when a buffer that
    it reads is missing or too short: the input for
    [base_loop_size * input_loop_size] elements, the weight for
    [input_loop_size * output_loop_size], the bias for
    [output_loop_size]. *)
Theorem exec_affine_reads_out_of_bounds (f : rt_function_t) (pimpl : affine_impl_t) (h : heap) :
  allocate_affine_config f = Ok pimpl ->
  0 < base_loop_size pimpl ->
  (0 < input_loop_size pimpl ->
   base_loop_size pimpl * input_loop_size pimpl < Int.half_modulus ->
   covers h (data (input pimpl)) (base_loop_size pimpl * input_loop_size pimpl) = false ->
   exec_affine pimpl h = Fault UndefinedBehaviour) /\
  (0 < input_loop_size pimpl -> 0 < output_loop_size pimpl ->
   input_loop_size pimpl * output_loop_size pimpl < Int.half_modulus ->
   covers h (data (weight pimpl)) (input_loop_size pimpl * output_loop_size pimpl) = false ->
   exec_affine pimpl h = Fault UndefinedBehaviour) /\
  (forall b, bias pimpl = Some b -> 0 < output_loop_size pimpl ->
   covers h (data b) (output_loop_size pimpl) = false ->
   exec_affine pimpl h = Fault UndefinedBehaviour).
Proof.
  intros Hres%allocate_affine_config_resolved Hb. repeat split.
  - intros Hi Hfit Hc. apply (exec_affine_fault_of_generic f pimpl Hres).
    apply (input_too_short f); assumption.
  - intros Hi Ho Hfit Hc. apply (exec_affine_fault_of_generic f pimpl Hres).
    apply (weight_too_short f); assumption.
  - intros b Hbias Ho Hc. apply (exec_affine_fault_of_generic f pimpl Hres).
    apply (bias_too_short f pimpl h Hres b); assumption.
Qed.

End OutOfBoundsTheorems.

(** ** More on what a run computes *)

Section RunFurther.

Context `{Conversions}.

Lemma cell_clear_inside pimpl (p : nat) (c : F32.t) :
  Z.of_nat p < output_size pimpl ->
  cell_clear pimpl p c = encode (type (output pimpl)) F32.zero.
Proof.
  intros Hp. unfold cell_clear.
  rewrite (fold_loop_one _ _ (Z.of_nat p)).
  - unfold hit. rewrite Nat2Z.id, Nat.eqb_refl. reflexivity.
  - lia.
  - intros i x Hi Hne. apply hit_other. lia.
Qed.

Lemma cell_clear_outside pimpl (p : nat) (c : F32.t) :
  output_size pimpl <= Z.of_nat p -> cell_clear pimpl p c = c.
Proof.
  intros Hp. unfold cell_clear. apply fold_loop_id.
  intros i x Hi. apply hit_other. lia.
Qed.

Lemma load_insert_imap out pos (g : nat -> F32.t -> F32.t) (b : list F32.t) (h : heap) :
  h !! out = Some b ->
  load out pos (<[out := imap g b]> h)
  = (c ← load out pos h; Ok (g (Z.to_nat pos) c)).
Proof.
  intros Hb. unfold load. destruct (pos <? 0); [reflexivity|].
  rewrite lookup_insert_eq, Hb, list_lookup_imap.
  destruct (b !! Z.to_nat pos); reflexivity.
Qed.

(** X6: with no rows ([base_loop_size = 0]) a run is its clearing stage,
    whatever the shape of the output: the first [output_size] elements of
    the output buffer become the stored zero, and nothing else changes. *)
Theorem exec_affine_without_rows
    (f : rt_function_t) (pimpl : affine_impl_t) (h : heap) :
  allocate_affine_config f = Ok pimpl ->
  base_loop_size pimpl = 0 ->
  0 <= output_size pimpl ->
  covers h (data (output pimpl)) (output_size pimpl) = true ->
  exists h',
    exec_affine pimpl h = Ok h' /\
    (forall pos, 0 <= pos < output_size pimpl ->
       load (data (output pimpl)) pos h' = Ok (encode (type (output pimpl)) F32.zero)) /\
    (forall pos, output_size pimpl <= pos ->
       load (data (output pimpl)) pos h' = load (data (output pimpl)) pos h) /\
    (forall q, q <> data (output pimpl) -> h' !! q = h !! q).
Proof.
  intros Hres%allocate_affine_config_resolved Hbase Hsize Hc.
  unfold covers in Hc.
  destruct (h !! data (output pimpl)) as [b|] eqn:Hb; [|discriminate].
  apply Z.leb_le in Hc.
  exists (<[data (output pimpl) := imap (cell_clear pimpl) b]> h).
  split; [|split; [|split]].
  - rewrite (exec_affine_generic_eq f) by assumption.
    rewrite exec_affine_generic_stages. unfold generic_clear.
    rewrite <- (insert_id h _ _ Hb) at 1.
    rewrite (clear_stage f pimpl h Hres) by exact Hc.
    rewrite result_bind_ok, Hbase. reflexivity.
  - intros pos Hpos. rewrite load_insert_imap by exact Hb.
    destruct (lookup_lt_is_Some_2 b (Z.to_nat pos)) as [c Hc']; [lia|].
    unfold load at 1. destruct (Z.ltb_spec pos 0) as [|_]; [lia|].
    rewrite Hb, Hc'. simpl. rewrite cell_clear_inside by lia. reflexivity.
  - intros pos Hpos. rewrite load_insert_imap by exact Hb.
    destruct (load (data (output pimpl)) pos h) as [c|e]; simpl; [|reflexivity].
    rewrite cell_clear_outside by lia. reflexivity.
  - intros q Hq. rewrite lookup_insert_ne by congruence. reflexivity.
Qed.

(** X8: for an output of any type, element [i] of row [k] of the output
    buffer after a run is [row_cell]: the accumulation starts from the
    stored zero and every partial sum is written through the writer of
    the output and read back through its reader; the reader then gives
    the decoded element. *)
Theorem exec_affine_rows_any_type
    (f : rt_function_t) (pimpl : affine_impl_t) (h : heap) :
  allocate_affine_config f = Ok pimpl ->
  exec_ready pimpl h = true ->
  exists h',
    exec_affine pimpl h = Ok h' /\
    forall k i, 0 <= k < base_loop_size pimpl -> 0 <= i < output_loop_size pimpl ->
      load (data (output pimpl)) (k * output_loop_size pimpl + i) h'
      = Ok (row_cell pimpl h k i) /\
      get_output pimpl (output pimpl) (k * output_loop_size pimpl + i) h'
      = Ok (decode (type (output pimpl)) (row_cell pimpl h k i)).
Proof.
  intros Hb Hready. pose proof (allocate_affine_config_resolved f pimpl Hb) as Hres.
  destruct (exec_affine_rows f pimpl h Hres Hready) as (b & _ & _ & Hrun & Hrows).
  eexists. split; [exact Hrun|].
  intros k i Hk Hi. split; [apply Hrows; assumption|].
  destruct Hres as (_ & _ & _ & _ & _ & _ & _ & Hgo & _).
  rewrite Hgo, select_getter_load, Hrows by assumption. reflexivity.
Qed.

Lemma row_cell_ext pimpl (h1 h2 : heap) k1 k2 i :
  (forall j, 0 <= j < input_loop_size pimpl ->
     element h1 (input pimpl) (k1 * input_loop_size pimpl + j)
     = element h2 (input pimpl) (k2 * input_loop_size pimpl + j)) ->
  (forall j, 0 <= j < input_loop_size pimpl ->
     element h1 (weight pimpl) (j * output_loop_size pimpl + i)
     = element h2 (weight pimpl) (j * output_loop_size pimpl + i)) ->
  (forall b, bias pimpl = Some b -> element h1 b i = element h2 b i) ->
  row_cell pimpl h1 k1 i = row_cell pimpl h2 k2 i.
Proof.
  intros Hin Hw Hbias. unfold row_cell. cbv zeta.
  rewrite (fold_loop_ext _ _ _
    (fun j c =>
       encode (type (output pimpl))
         (F32.add (decode (type (output pimpl)) c)
            (F32.mul (element h2 (input pimpl) (k2 * input_loop_size pimpl + j))
               (element h2 (weight pimpl) (j * output_loop_size pimpl + i)))))).
  - destruct (bias pimpl) as [b|]; [|reflexivity]. rewrite (Hbias b eq_refl). reflexivity.
  - intros j x Hj. rewrite Hin, Hw by exact Hj. reflexivity.
Qed.

(** X9: output element [(k, i)] depends only on row [k] of the input,
    column [i] of the weight and element [i] of the bias: two memories
    that agree on these give the same element. *)
Theorem exec_affine_local
    (f : rt_function_t) (pimpl : affine_impl_t) (h1 h2 : heap) (k i : Z) :
  allocate_affine_config f = Ok pimpl ->
  exec_ready pimpl h1 = true ->
  exec_ready pimpl h2 = true ->
  0 <= k < base_loop_size pimpl -> 0 <= i < output_loop_size pimpl ->
  (forall j, 0 <= j < input_loop_size pimpl ->
     element h1 (input pimpl) (k * input_loop_size pimpl + j)
     = element h2 (input pimpl) (k * input_loop_size pimpl + j)) ->
  (forall j, 0 <= j < input_loop_size pimpl ->
     element h1 (weight pimpl) (j * output_loop_size pimpl + i)
     = element h2 (weight pimpl) (j * output_loop_size pimpl + i)) ->
  (forall b, bias pimpl = Some b -> element h1 b i = element h2 b i) ->
  exists h1' h2',
    exec_affine pimpl h1 = Ok h1' /\
    exec_affine pimpl h2 = Ok h2' /\
    load (data (output pimpl)) (k * output_loop_size pimpl + i) h1'
    = load (data (output pimpl)) (k * output_loop_size pimpl + i) h2'.
Proof.
  intros Hres%allocate_affine_config_resolved Hr1 Hr2 Hk Hi Hin Hw Hbias.
  destruct (exec_affine_rows f pimpl h1 Hres Hr1) as (b1 & _ & _ & Hrun1 & Hrows1).
  destruct (exec_affine_rows f pimpl h2 Hres Hr2) as (b2 & _ & _ & Hrun2 & Hrows2).
  eexists. eexists. split; [exact Hrun1|]. split; [exact Hrun2|].
  rewrite Hrows1, Hrows2 by assumption. f_equal.
  apply row_cell_ext; assumption.
Qed.

(** X10: two rows of the input with the same elements give two rows of
    the output with the same elements. *)
Theorem exec_affine_equal_rows
    (f : rt_function_t) (pimpl : affine_impl_t) (h : heap) (k1 k2 : Z) :
  allocate_affine_config f = Ok pimpl ->
  exec_ready pimpl h = true ->
  0 <= k1 < base_loop_size pimpl -> 0 <= k2 < base_loop_size pimpl ->
  (forall j, 0 <= j < input_loop_size pimpl ->
     element h (input pimpl) (k1 * input_loop_size pimpl + j)
     = element h (input pimpl) (k2 * input_loop_size pimpl + j)) ->
  exists h',
    exec_affine pimpl h = Ok h' /\
    forall i, 0 <= i < output_loop_size pimpl ->
      load (data (output pimpl)) (k1 * output_loop_size pimpl + i) h'
      = load (data (output pimpl)) (k2 * output_loop_size pimpl + i) h'.
Proof.
  intros Hres%allocate_affine_config_resolved Hready Hk1 Hk2 Hin.
  destruct (exec_affine_rows f pimpl h Hres Hready) as (b & _ & _ & Hrun & Hrows).
  eexists. split; [exact Hrun|].
  intros i Hi. rewrite !Hrows by assumption. f_equal.
  apply row_cell_ext; [exact Hin|reflexivity|reflexivity].
Qed.

End RunFurther.

(** ** What a run never writes *)

Lemma for_from_preserves_in {S : Type} (P : S -> Prop) (body : Z -> S -> result S)
    count i s s' :
  (forall j t t', i <= j < i + Z.of_nat count -> P t -> body j t = Ok t' -> P t') ->
  P s -> for_from count i body s = Ok s' -> P s'.
Proof.
  revert i s. induction count as [|count IH]; intros i s Hb Hs; simpl.
  - intros [= <-]. exact Hs.
  - destruct (body i s) as [t|e] eqn:Hbody; simpl; [|discriminate].
    apply IH.
    + intros j t0 t' Hj. apply Hb. lia.
    + apply (Hb i s t); [lia|exact Hs|exact Hbody].
Qed.

Lemma for_loop_preserves_in {S : Type} (P : S -> Prop) (body : Z -> S -> result S)
    lo hi s s' :
  (forall j t t', lo <= j < hi -> P t -> body j t = Ok t' -> P t') ->
  P s -> for_loop lo hi body s = Ok s' -> P s'.
Proof.
  intros Hb. unfold for_loop. apply for_from_preserves_in.
  intros j t t' Hj. apply Hb. lia.
Qed.

Lemma load_store_other p q x pos (t t' : heap) :
  store p q x t = Ok t' -> pos <> q -> load p pos t' = load p pos t.
Proof.
  intros (buf & Hbuf & Hq & _ & ->)%store_inv Hne. unfold load.
  destruct (Z.ltb_spec pos 0) as [|Hpos]; [reflexivity|].
  rewrite lookup_insert_eq, Hbuf.
  rewrite list_lookup_insert_ne by lia. reflexivity.
Qed.

Section Tail.

Context `{Conversions}.
Variable pimpl : affine_impl_t.
Hypothesis Hset : set_output pimpl = select_setter (output pimpl).
Hypothesis Hfit : base_loop_size pimpl * output_loop_size pimpl < Int.half_modulus.

Lemma set_output_keeps (h t t' : heap) q x :
  (q < output_size pimpl \/ q < base_loop_size pimpl * output_loop_size pimpl) ->
  tail_kept pimpl h t -> set_output pimpl (output pimpl) q x t = Ok t' -> tail_kept pimpl h t'.
Proof.
  intros Hq Ht Hst pos Hp1 Hp2. rewrite Hset, select_setter_store in Hst.
  rewrite (load_store_other _ _ _ pos _ _ Hst) by lia. apply Ht; assumption.
Qed.

Lemma generic_clear_keeps (h t t' : heap) :
  tail_kept pimpl h t -> generic_clear pimpl t = Ok t' -> tail_kept pimpl h t'.
Proof.
  unfold generic_clear. apply (for_loop_preserves_in (tail_kept pimpl h)).
  intros i s s' Hi Hs Hst. apply (set_output_keeps h s s' i F32.zero); [lia|exact Hs|exact Hst].
Qed.

Lemma generic_mac_keeps (h t t' : heap) k j u i :
  0 <= k < base_loop_size pimpl -> 0 <= i < output_loop_size pimpl ->
  tail_kept pimpl h t -> generic_mac pimpl k j u i t = Ok t' -> tail_kept pimpl h t'.
Proof.
  intros Hk Hi Ht. unfold generic_mac. cbv zeta.
  destruct (get_weight pimpl _ _ t); simpl; [|discriminate].
  destruct (get_output pimpl _ _ t); simpl; [|discriminate].
  apply set_output_keeps; [|exact Ht].
  right. destruct (index_small k _ i _ Hk Hi Hfit) as [-> ?]. lia.
Qed.

Lemma generic_feature_keeps (h t t' : heap) k j :
  0 <= k < base_loop_size pimpl ->
  tail_kept pimpl h t -> generic_feature pimpl k j t = Ok t' -> tail_kept pimpl h t'.
Proof.
  intros Hk Ht. unfold generic_feature. cbv zeta.
  destruct (get_input pimpl _ _ t) as [u|]; simpl; [|discriminate].
  apply (for_loop_preserves_in (tail_kept pimpl h)); [|exact Ht].
  intros i s s' Hi Hs. apply generic_mac_keeps; assumption.
Qed.

Lemma generic_bias_keeps (h t t' : heap) k b i :
  0 <= k < base_loop_size pimpl -> 0 <= i < output_loop_size pimpl ->
  tail_kept pimpl h t -> generic_bias pimpl k b i t = Ok t' -> tail_kept pimpl h t'.
Proof.
  intros Hk Hi Ht. unfold generic_bias. cbv zeta.
  destruct (get_output pimpl _ _ t); simpl; [|discriminate].
  destruct (call_get_bias pimpl _ _ t); simpl; [|discriminate].
  apply set_output_keeps; [|exact Ht].
  right. destruct (index_small k _ i _ Hk Hi Hfit) as [-> ?]. lia.
Qed.

Lemma generic_row_keeps (h t t' : heap) k :
  0 <= k < base_loop_size pimpl ->
  tail_kept pimpl h t -> generic_row pimpl k t = Ok t' -> tail_kept pimpl h t'.
Proof.
  intros Hk Ht. unfold generic_row.
  destruct (for_loop 0 (input_loop_size pimpl) (generic_feature pimpl k) t)
    as [t1|] eqn:E1; simpl; [|discriminate].
  assert (tail_kept pimpl h t1) as Ht1.
  { revert E1. apply (for_loop_preserves_in (tail_kept pimpl h)); [|exact Ht].
    intros j s s' _ Hs. apply generic_feature_keeps; assumption. }
  destruct (bias pimpl) as [b|].
  - apply (for_loop_preserves_in (tail_kept pimpl h)); [|exact Ht1].
    intros i s s' Hi Hs. apply generic_bias_keeps; assumption.
  - intros [= <-]. exact Ht1.
Qed.

Lemma exec_affine_generic_keeps (h h' : heap) :
  exec_affine_generic pimpl h = Ok h' -> tail_kept pimpl h h'.
Proof.
  change (exec_affine_generic pimpl h)
    with (t ← generic_clear pimpl h;
          for_loop 0 (base_loop_size pimpl) (generic_row pimpl) t).
  destruct (generic_clear pimpl h) as [t1|] eqn:E1; simpl; [|discriminate].
  apply (for_loop_preserves_in (tail_kept pimpl h)).
  - intros k s s' Hk Hs. apply generic_row_keeps; assumption.
  - apply (generic_clear_keeps h h t1); [intros pos _ _; reflexivity|exact E1].
Qed.

End Tail.

Section TailTheorem.

Context `{Conversions}.

(** X7: a run writes nothing past its clearing range and its rows.  With
    row offsets that fit an [int], every run of [exec_affine] that
    returns keeps each element of the output buffer whose index is at
    least [output_size] and at least
    [base_loop_size * output_loop_size], whatever the shapes and the
    lengths of the buffers. *)
Theorem exec_affine_keeps_tail
    (f : rt_function_t) (pimpl : affine_impl_t) (h h' : heap) :
  allocate_affine_config f = Ok pimpl ->
  base_loop_size pimpl * output_loop_size pimpl < Int.half_modulus ->
  exec_affine pimpl h = Ok h' ->
  forall pos,
    output_size pimpl <= pos ->
    base_loop_size pimpl * output_loop_size pimpl <= pos ->
    load (data (output pimpl)) pos h' = load (data (output pimpl)) pos h.
Proof.
  intros Hres%allocate_affine_config_resolved Hfit Hrun.
  assert (exec_affine_generic pimpl h = Ok h') as Hg.
  { unfold exec_affine in Hrun.
    destruct (select_strategy pimpl) eqn:Hs; [|exact Hrun].
    destruct (Z.lt_ge_cases (output_size pimpl) 0) as [Hneg|Hpos].
    - unfold exec_affine_float, memset_zero in Hrun.
      destruct (Z.ltb_spec (output_size pimpl) 0) as [_|]; [discriminate|lia].
    - rewrite (strategies_agree f) by
        (first [exact Hres | apply select_strategy_direct, Hs | exact Hpos]).
      exact Hrun. }
  destruct Hres as (_ & _ & _ & _ & _ & _ & _ & _ & Hset & _).
  apply (exec_affine_generic_keeps pimpl Hset Hfit h h' Hg).
Qed.

End TailTheorem.

(** ** Float edge cases *)

Lemma f32_add_nan_r (x : F32.t) : F32.add x S754_nan = S754_nan.
Proof. destruct x; reflexivity. Qed.

Lemma f32_add_nan_l (x : F32.t) : F32.add S754_nan x = S754_nan.
Proof. reflexivity. Qed.

Lemma f32_mul_nan_l (x : F32.t) : F32.mul S754_nan x = S754_nan.
Proof. reflexivity. Qed.

Lemma f32_mul_nan_r (x : F32.t) : F32.mul x S754_nan = S754_nan.
Proof. destruct x; reflexivity. Qed.

Lemma fold_from_absorbed {A : Type} (z : A) count i j0 (step : Z -> A -> A) a :
  i <= j0 < i + Z.of_nat count ->
  (forall x, step j0 x = z) ->
  (forall j, step j z = z) ->
  fold_from count i step a = z.
Proof.
  intros Hj0 Hhit Hkeep. revert i a Hj0.
  induction count as [|count IH]; intros i a Hj0; [lia|]. simpl.
  destruct (Z.eq_dec i j0) as [->|Hne].
  - rewrite Hhit. apply fold_from_invariant with (P := fun x => x = z); [|reflexivity].
    intros j x ->. apply Hkeep.
  - apply IH. lia.
Qed.

Section FloatEdges.

Context `{Conversions}.

Lemma row_cell_float_fold pimpl (h : heap) k i :
  type (output pimpl) = NN_DATA_TYPE_FLOAT ->
  row_cell pimpl h k i
  = let acc :=
      fold_loop 0 (input_loop_size pimpl) (fun j c =>
        F32.add c
          (F32.mul (element h (input pimpl) (k * input_loop_size pimpl + j))
                   (element h (weight pimpl) (j * output_loop_size pimpl + i))))
        F32.zero in
    match bias pimpl with
    | Some b => F32.add acc (element h b i)
    | None => acc
    end.
Proof. intros Hty. unfold row_cell. rewrite Hty. reflexivity. Qed.

(** X11: a NaN poisons what it feeds.  With a Float32 output, output
    element [(k, i)] is NaN as soon as an input element of row [k], a
    weight element of column [i] or the bias element [i] reads as NaN. *)
Theorem exec_affine_nan
    (f : rt_function_t) (pimpl : affine_impl_t) (h : heap) (k i : Z) :
  allocate_affine_config f = Ok pimpl ->
  exec_ready pimpl h = true ->
  type (output pimpl) = NN_DATA_TYPE_FLOAT ->
  0 <= k < base_loop_size pimpl -> 0 <= i < output_loop_size pimpl ->
  (exists j, 0 <= j < input_loop_size pimpl /\
     (element h (input pimpl) (k * input_loop_size pimpl + j) = S754_nan \/
      element h (weight pimpl) (j * output_loop_size pimpl + i) = S754_nan)) \/
  (exists b, bias pimpl = Some b /\ element h b i = S754_nan) ->
  exists h',
    exec_affine pimpl h = Ok h' /\
    load (data (output pimpl)) (k * output_loop_size pimpl + i) h' = Ok S754_nan.
Proof.
  intros Hres%allocate_affine_config_resolved Hready Hty Hk Hi Hnan.
  destruct (exec_affine_rows f pimpl h Hres Hready) as (b & _ & _ & Hrun & Hrows).
  eexists. split; [exact Hrun|].
  rewrite Hrows by assumption. f_equal.
  rewrite row_cell_float_fold by exact Hty. cbv zeta.
  destruct Hnan as [(j & Hj & Hnan) | (vb & Hb & Hnan)].
  - unfold fold_loop.
    rewrite (fold_from_absorbed S754_nan _ _ j).
    + destruct (bias pimpl); reflexivity.
    + lia.
    + intros x. destruct Hnan as [-> | ->].
      * rewrite f32_mul_nan_l. apply f32_add_nan_r.
      * rewrite f32_mul_nan_r. apply f32_add_nan_r.
    + intros j'. apply f32_add_nan_l.
  - rewrite Hb, Hnan. apply f32_add_nan_r.
Qed.

(** X12: with no input feature ([input_loop_size = 0]) and a Float32
    output, each output element is [+0.0 + bias[i]], and [+0.0] without a
    bias. *)
Theorem exec_affine_no_features
    (f : rt_function_t) (pimpl : affine_impl_t) (h : heap) :
  allocate_affine_config f = Ok pimpl ->
  exec_ready pimpl h = true ->
  type (output pimpl) = NN_DATA_TYPE_FLOAT ->
  input_loop_size pimpl = 0 ->
  exists h',
    exec_affine pimpl h = Ok h' /\
    forall k i, 0 <= k < base_loop_size pimpl -> 0 <= i < output_loop_size pimpl ->
      load (data (output pimpl)) (k * output_loop_size pimpl + i) h'
      = Ok match bias pimpl with
           | Some b => F32.add F32.zero (element h b i)
           | None => F32.zero
           end.
Proof.
  intros Hres%allocate_affine_config_resolved Hready Hty Hils.
  destruct (exec_affine_rows f pimpl h Hres Hready) as (b & _ & _ & Hrun & Hrows).
  eexists. split; [exact Hrun|].
  intros k i Hk Hi. rewrite Hrows by assumption. f_equal.
  rewrite row_cell_float_fold by exact Hty. rewrite Hils. reflexivity.
Qed.

End FloatEdges.

(** ** From the shapes to a defined run *)

Section ShapesToRun.

Context `{Conversions}.

Lemma exec_ready_intro pimpl (h : heap) :
  0 <= base_loop_size pimpl -> 0 <= input_loop_size pimpl -> 0 <= output_loop_size pimpl ->
  output_size pimpl = base_loop_size pimpl * output_loop_size pimpl ->
  base_loop_size pimpl * input_loop_size pimpl < Int.half_modulus ->
  input_loop_size pimpl * output_loop_size pimpl < Int.half_modulus ->
  base_loop_size pimpl * output_loop_size pimpl < Int.half_modulus ->
  covers h (data (input pimpl)) (base_loop_size pimpl * input_loop_size pimpl) = true ->
  covers h (data (weight pimpl)) (input_loop_size pimpl * output_loop_size pimpl) = true ->
  covers h (data (output pimpl)) (output_size pimpl) = true ->
  data (input pimpl) <> data (output pimpl) ->
  data (weight pimpl) <> data (output pimpl) ->
  (forall b, bias pimpl = Some b ->
     covers h (data b) (output_loop_size pimpl) = true /\ data b <> data (output pimpl)) ->
  exec_ready pimpl h = true.
Proof.
  intros Hb Hi Ho Hsize F1 F2 F3 C1 C2 C3 N1 N2 Hbias.
  unfold exec_ready.
  rewrite C1, C2, C3.
  rewrite (proj2 (Z.leb_le _ _) Hb), (proj2 (Z.leb_le _ _) Hi), (proj2 (Z.leb_le _ _) Ho).
  rewrite (proj2 (Z.eqb_eq _ _) Hsize).
  rewrite (proj2 (Z.ltb_lt _ _) F1), (proj2 (Z.ltb_lt _ _) F2), (proj2 (Z.ltb_lt _ _) F3).
  rewrite (proj2 (Z.eqb_neq _ _) N1), (proj2 (Z.eqb_neq _ _) N2). simpl.
  destruct (bias pimpl) as [b|]; [|reflexivity].
  destruct (Hbias b eq_refl) as [Cb Nb].
  rewrite Cb, (proj2 (Z.eqb_neq _ _) Nb). reflexivity.
Qed.

Lemma allocate_affine_config_products f pimpl :
  allocate_affine_config f = Ok pimpl ->
  base_loop_size pimpl
    = Int.wrap (shape_product (take (Z.to_nat (base_axis (config f))) (shape (input pimpl)))) /\
  input_loop_size pimpl
    = Int.wrap (shape_product (drop (Z.to_nat (base_axis (config f))) (shape (input pimpl)))) /\
  output_loop_size pimpl
    = Int.wrap (shape_product (drop (Z.to_nat (base_axis (config f))) (shape (output pimpl)))) /\
  output_size pimpl = Int.wrap (shape_product (shape (output pimpl))).
Proof.
  intros Hb. pose proof (allocate_affine_config_axis f pimpl Hb) as Hax.
  pose proof (allocate_affine_config_resolved f pimpl Hb)
    as (_ & _ & _ & _ & _ & _ & _ & _ & _ & Hsize & _ & Hbase & Hils & Hols).
  assert (base_axis (config f) <= rt_list_size (shape (input pimpl))) as Hle.
  { destruct (Z.eq_dec (base_axis (config f)) 0) as [->|Hne];
      [unfold rt_list_size; lia|].
    apply (shape_loop_end _ _ _ _ Hbase). lia. }
  rewrite shape_loop_prefix in Hbase by lia.
  rewrite shape_loop_suffix in Hils, Hols by exact Hax.
  rewrite Hsize, calc_shape_size_product.
  repeat split; congruence.
Qed.

Lemma allocate_affine_config_in_filled f pimpl (a : allocation) :
  allocate_affine_config f = Ok pimpl ->
  allocate_affine_config_in a f
  = match a with
    | Grown | Replaced => Ok (Filled pimpl)
    | Moved => Ok Released
    | Exhausted => Fault UndefinedBehaviour
    end.
Proof.
  intros Hb. unfold allocate_affine_config_in.
  assert (assert ((num_of_inputs f =? 2) || (num_of_inputs f =? 3)) = Ok tt) as ->.
  { unfold allocate_affine_config in Hb.
    destruct (assert ((num_of_inputs f =? 2) || (num_of_inputs f =? 3))) as [[]|];
      [reflexivity|discriminate]. }
  assert (assert (num_of_outputs f =? 1) = Ok tt) as ->.
  { unfold allocate_affine_config in Hb.
    destruct (assert ((num_of_inputs f =? 2) || (num_of_inputs f =? 3))) as [[]|];
      [|discriminate]. simpl in Hb.
    destruct (assert (num_of_outputs f =? 1)) as [[]|]; [reflexivity|discriminate]. }
  simpl. destruct a; rewrite ?Hb; reflexivity.
Qed.

(** X13: bind followed by a run, with the block that [f->config] is left
    pointing to.  When the dimensions are not negative, the leading
    dimensions of the output are those of the input, the products fit an
    [int], the input and output buffers hold the product of their shape,
    the weight buffer [input_loop_size * output_loop_size] elements and
    the bias [output_loop_size], and the output buffer is none of the
    others, then the state that the bind fills is [exec_ready], and the
    two calls return when [realloc] hands back the block of [f->config]
    or none, [malloc] then giving one.  When [realloc] moves the block
    the bind fills the new one and leaves [f->config] on the freed one,
    which the run then reads; when there is no block the bind writes
    through the null pointer. *)
Theorem bound_kernel_runs
    (a : allocation) (f : rt_function_t) (pimpl : affine_impl_t) (h : heap) :
  allocate_affine_config f = Ok pimpl ->
  forallb (fun d => 0 <=? d) (shape (input pimpl)) = true ->
  forallb (fun d => 0 <=? d) (shape (output pimpl)) = true ->
  take (Z.to_nat (base_axis (config f))) (shape (output pimpl))
    = take (Z.to_nat (base_axis (config f))) (shape (input pimpl)) ->
  shape_product (take (Z.to_nat (base_axis (config f))) (shape (input pimpl)))
    < Int.half_modulus ->
  shape_product (drop (Z.to_nat (base_axis (config f))) (shape (input pimpl)))
    < Int.half_modulus ->
  shape_product (drop (Z.to_nat (base_axis (config f))) (shape (output pimpl)))
    < Int.half_modulus ->
  shape_product (shape (input pimpl)) < Int.half_modulus ->
  shape_product (shape (output pimpl)) < Int.half_modulus ->
  shape_product (drop (Z.to_nat (base_axis (config f))) (shape (input pimpl)))
    * shape_product (drop (Z.to_nat (base_axis (config f))) (shape (output pimpl)))
    < Int.half_modulus ->
  covers h (data (input pimpl)) (shape_product (shape (input pimpl))) = true ->
  covers h (data (output pimpl)) (shape_product (shape (output pimpl))) = true ->
  covers h (data (weight pimpl))
    (shape_product (drop (Z.to_nat (base_axis (config f))) (shape (input pimpl)))
     * shape_product (drop (Z.to_nat (base_axis (config f))) (shape (output pimpl)))) = true ->
  (forall b, bias pimpl = Some b ->
     covers h (data b)
       (shape_product (drop (Z.to_nat (base_axis (config f))) (shape (output pimpl)))) = true /\
     data b <> data (output pimpl)) ->
  data (input pimpl) <> data (output pimpl) ->
  data (weight pimpl) <> data (output pimpl) ->
  exec_ready pimpl h = true /\
  match a with
  | Grown | Replaced =>
      exists h', exec_affine pimpl h = Ok h' /\ bind_and_run a f h = Ok h'
  | Moved | Exhausted => bind_and_run a f h = Fault UndefinedBehaviour
  end.
Proof.
  intros Hb Pin Pout Hlead FB FI FO FPin FPout FIO Cin Cout Cw Hbias Nin Nw.
  destruct (allocate_affine_config_products f pimpl Hb) as (Ebase & Eils & Eols & Esize).
  set (ba := Z.to_nat (base_axis (config f))) in *.
  assert (Forall (fun d => 0 <= d) (shape (input pimpl))) as Pin'.
  { apply Forall_forall. intros d Hd. apply Z.leb_le.
    rewrite forallb_forall in Pin. apply Pin, list_elem_of_In, Hd. }
  assert (Forall (fun d => 0 <= d) (shape (output pimpl))) as Pout'.
  { apply Forall_forall. intros d Hd. apply Z.leb_le.
    rewrite forallb_forall in Pout. apply Pout, list_elem_of_In, Hd. }
  assert (0 <= shape_product (take ba (shape (input pimpl)))) as NB
    by apply shape_product_nonneg, Forall_take, Pin'.
  assert (0 <= shape_product (drop ba (shape (input pimpl)))) as NI
    by apply shape_product_nonneg, Forall_drop, Pin'.
  assert (0 <= shape_product (drop ba (shape (output pimpl)))) as NO
    by apply shape_product_nonneg, Forall_drop, Pout'.
  pose proof IntFacts.half_modulus_pos as Hpos.
  rewrite IntFacts.wrap_small in Ebase, Eils, Eols by (unfold Int.in_range; lia).
  assert (shape_product (shape (input pimpl))
          = base_loop_size pimpl * input_loop_size pimpl) as Hin.
  { rewrite <- (take_drop ba (shape (input pimpl))) at 1.
    rewrite shape_product_app. congruence. }
  assert (shape_product (shape (output pimpl))
          = base_loop_size pimpl * output_loop_size pimpl) as Hout.
  { rewrite <- (take_drop ba (shape (output pimpl))) at 1.
    rewrite shape_product_app, Hlead. congruence. }
  rewrite IntFacts.wrap_small in Esize
    by (unfold Int.in_range; pose proof (shape_product_nonneg _ Pout'); lia).
  assert (exec_ready pimpl h = true) as Hready.
  { apply exec_ready_intro; try assumption; try lia.
    - rewrite <- Hin. exact Cin.
    - rewrite Eils, Eols. exact Cw.
    - rewrite Esize. exact Cout.
    - intros b Hbs. rewrite Eols. apply Hbias, Hbs. }
  split; [exact Hready|].
  destruct (exec_affine_rows f pimpl h (allocate_affine_config_resolved _ _ Hb) Hready)
    as (b & _ & _ & Hrun & _).
  unfold bind_and_run. rewrite (allocate_affine_config_in_filled f pimpl a Hb).
  destruct a; simpl; first [reflexivity | eexists; split; exact Hrun].
Qed.

End ShapesToRun.

(** ** The further properties at concrete kernels *)

Section FurtherInstances.

#[local] Existing Instance Scenario.raw_codes.

Lemma allocate_affine_config_edge_axes_witness :
  input_loop_size (Cases.bound Cases.f_flat) = 1 /\
  output_loop_size (Cases.bound Cases.f_flat) = 1.
Proof.
  destruct (allocate_affine_config_edge_axes Cases.f_flat (Cases.bound Cases.f_flat))
    as (_ & Hin & Hout); [reflexivity|].
  split; [apply Hin; reflexivity | apply Hout; discriminate].
Defined.

Lemma exec_affine_output_too_short_witness :
  exec_affine Scenario.pimpl (Scenario.mem Cases.output_short) = Fault UndefinedBehaviour /\
  exec_affine_float Scenario.pimpl (Scenario.mem Cases.output_short)
  = Fault UndefinedBehaviour /\
  exec_affine_generic Scenario.pimpl (Scenario.mem Cases.output_short)
  = Fault UndefinedBehaviour.
Proof.
  apply (exec_affine_output_too_short Scenario.f); reflexivity.
Defined.

Lemma exec_affine_reads_out_of_bounds_witness :
  exec_affine Scenario.pimpl (Cases.mem Cases.input_short Scenario.stale)
  = Fault UndefinedBehaviour.
Proof.
  apply (proj1 (exec_affine_reads_out_of_bounds Scenario.f Scenario.pimpl
                  (Cases.mem Cases.input_short Scenario.stale) eq_refl eq_refl));
    reflexivity.
Defined.

Lemma exec_affine_without_rows_witness :
  exists h',
    exec_affine (Cases.bound Cases.f_no_rows) (Scenario.mem Scenario.stale) = Ok h' /\
    (forall pos, 0 <= pos < 8 -> load 400 pos h' = Ok F32.zero) /\
    (forall pos, 8 <= pos -> load 400 pos h' = load 400 pos (Scenario.mem Scenario.stale)) /\
    (forall q, q <> 400 -> h' !! q = Scenario.mem Scenario.stale !! q).
Proof.
  apply (exec_affine_without_rows Cases.f_no_rows (Cases.bound Cases.f_no_rows));
    first [reflexivity | discriminate].
Defined.

Lemma exec_affine_keeps_tail_witness :
  output_size (Cases.bound Cases.f_one_row) = 4 /\
  base_loop_size (Cases.bound Cases.f_one_row)
    * output_loop_size (Cases.bound Cases.f_one_row) = 8 /\
  exec_affine (Cases.bound Cases.f_one_row) (Scenario.mem Cases.output_long)
  = Ok (Scenario.mem Cases.output_one_row) /\
  forall pos, 4 <= pos -> 8 <= pos ->
    load 400 pos (Scenario.mem Cases.output_one_row)
    = load 400 pos (Scenario.mem Cases.output_long).
Proof.
  split; [reflexivity|]. split; [reflexivity|].
  assert (exec_affine (Cases.bound Cases.f_one_row) (Scenario.mem Cases.output_long)
          = Ok (Scenario.mem Cases.output_one_row)) as Hrun by (vm_compute; reflexivity).
  split; [exact Hrun|].
  apply (exec_affine_keeps_tail Cases.f_one_row (Cases.bound Cases.f_one_row)
           (Scenario.mem Cases.output_long) (Scenario.mem Cases.output_one_row));
    [reflexivity|reflexivity|exact Hrun].
Defined.

Lemma exec_affine_rows_any_type_witness :
  exists h',
    exec_affine (Cases.bound Cases.f_coded) (Scenario.mem Scenario.stale) = Ok h' /\
    forall k i, 0 <= k < 2 -> 0 <= i < 4 ->
      load 400 (k * 4 + i) h'
      = Ok (row_cell (Cases.bound Cases.f_coded) (Scenario.mem Scenario.stale) k i) /\
      get_output (Cases.bound Cases.f_coded) Cases.v_coded_output (k * 4 + i) h'
      = Ok (decode (NN_DATA_TYPE_OTHER 8)
              (row_cell (Cases.bound Cases.f_coded) (Scenario.mem Scenario.stale) k i)).
Proof.
  apply (exec_affine_rows_any_type Cases.f_coded (Cases.bound Cases.f_coded));
    reflexivity.
Defined.

Lemma exec_affine_local_witness :
  exists h1' h2',
    exec_affine Scenario.pimpl (Scenario.mem Scenario.stale) = Ok h1' /\
    exec_affine Scenario.pimpl (Cases.mem Cases.input_other_row Scenario.stale) = Ok h2' /\
    load 400 (0 * 4 + 2) h1' = load 400 (0 * 4 + 2) h2'.
Proof.
  apply (exec_affine_local Scenario.f Scenario.pimpl);
    first [ reflexivity
          | split; [discriminate|reflexivity]
          | intros b [= <-]; reflexivity
          | intros j Hj; simpl in Hj;
            assert (j = 0 \/ j = 1 \/ j = 2) as [-> | [-> | ->]] by lia; reflexivity ].
Defined.

Lemma exec_affine_equal_rows_witness :
  exists h',
    exec_affine Scenario.pimpl (Cases.mem Cases.input_twice Scenario.stale) = Ok h' /\
    forall i, 0 <= i < 4 -> load 400 (0 * 4 + i) h' = load 400 (1 * 4 + i) h'.
Proof.
  apply (exec_affine_equal_rows Scenario.f Scenario.pimpl);
    first [ reflexivity
          | split; [discriminate|reflexivity]
          | intros j Hj; simpl in Hj;
            assert (j = 0 \/ j = 1 \/ j = 2) as [-> | [-> | ->]] by lia; reflexivity ].
Defined.

Lemma exec_affine_nan_witness :
  exists h',
    exec_affine Scenario.pimpl (Cases.mem Cases.input_nan Scenario.stale) = Ok h' /\
    load 400 (0 * 4 + 2) h' = Ok S754_nan.
Proof.
  apply (exec_affine_nan Scenario.f Scenario.pimpl); try reflexivity.
  - split; [discriminate|reflexivity].
  - split; [discriminate|reflexivity].
  - left. exists 1. split; [split; [discriminate|reflexivity]|]. left. reflexivity.
Defined.

Lemma exec_affine_no_features_witness :
  exists h',
    exec_affine (Cases.bound Cases.f_no_features) (Scenario.mem Scenario.stale) = Ok h' /\
    forall k i, 0 <= k < 2 -> 0 <= i < 4 ->
      load 400 (k * 4 + i) h'
      = Ok (F32.add F32.zero (element (Scenario.mem Scenario.stale) Scenario.v_bias i)).
Proof.
  apply (exec_affine_no_features Cases.f_no_features (Cases.bound Cases.f_no_features));
    reflexivity.
Defined.

Lemma bound_kernel_runs_witness :
  exec_ready Scenario.pimpl (Scenario.mem Scenario.stale) = true /\
  exists h',
    exec_affine Scenario.pimpl (Scenario.mem Scenario.stale) = Ok h' /\
    bind_and_run Grown Scenario.f (Scenario.mem Scenario.stale) = Ok h'.
Proof.
  apply (bound_kernel_runs Grown Scenario.f Scenario.pimpl);
    try reflexivity; try discriminate.
  intros b [= <-]. split; [reflexivity|discriminate].
Defined.

End FurtherInstances.
